(** * dgraph-load-test: the write / validate consistency prober

    A shallow embedding of [main.go]: the shared event counter and the
    writers that drain it ([addEvent], [runEventSimulator]), the validation
    scheduler ([runValidationScheduler]), the validation engine ([validate])
    and the reporter ([runReporting]); and of the backup scanner,
    [verification/checkBackup/main.go]. The properties of each are
    established below.

    Conventions.
    - A Go [uint64] is a [Z] kept in [0, 2^64) by [uint64_wrap]; the
      conversion [int(x)] of such a value is [int_of_uint64].
    - The counters of one validation pass ([countSeen], [outOfRange],
      [missed]) are Go [int]s that grow by one per enumerated row; they are
      kept as unbounded [Z], a pass never enumerating 2^63 rows.
    - Everything the program obtains from outside (the random picks, the
      clock, what a node answers) is an explicit input of the step that
      consumes it. *)

From Stdlib Require Import ZArith List Lia.
From stdpp Require Import base numbers list list_numbers gmap strings.

Local Open Scope Z_scope.

(** ** Configuration and machine integers *)

Definition WORKERS : nat := 5.
Definition MAX_EVENTS : Z := 100000.
Definition VALIDATION_INTERVAL : Z := 2500.
Definition pageSize : Z := 1000.

Definition people : list string :=
  ["Alice"; "Bob"; "Charlie"; "David"; "Eve"]%string.

Definition servers : list string :=
  ["http://localhost:8080"; "http://localhost:8081"; "http://localhost:8082"]%string.

Definition uint64_wrap (z : Z) : Z := z mod 2 ^ 64.

(** [int(x)] for [x : uint64]: the same 64 bits read as two's complement. *)
Definition int_of_uint64 (u : Z) : Z := (u + 2 ^ 63) mod 2 ^ 64 - 2 ^ 63.

(** ** Results of code that may terminate the process *)

Inductive exit_cause : Type :=
| AggregateQueryFailed
| PageQueryFailed (offset : Z)
| DuplicateValue (value : Z)
| ServerIndexOutOfRange (i : nat).

Inductive result (A : Type) : Type :=
| Ok (a : A)
| Exit (c : exit_cause).
Arguments Ok {A} a.
Arguments Exit {A} c.

(** Sequencing: an exit skips the rest of the computation. It is written
    [x ← r; k] below. *)
#[global] Instance result_bind : MBind result := fun A B k r =>
  match r with
  | Ok a => k a
  | Exit c => Exit c
  end.

(** ** The validation engine ([validate]) *)

Module Validation.

(** The locals of one pass over one node. *)
Record scan : Type := mkScan {
  seen : gmap Z bool;
  countSeen : Z;
  outOfRange : Z;
  maxValue : Z
}.

(** [seen := make(map[int]bool); for i := 0; i < highWaterMark; i++ { seen[i] = false }] *)
Definition init_seen (highWaterMark : Z) : gmap Z bool :=
  foldl (fun m i => <[i := false]> m) ∅ (seqZ 0 highWaterMark).

Definition init_scan (highWaterMark : Z) : scan :=
  mkScan (init_seen highWaterMark) 0 0 0.

(** The body of [for _, event := range events]. A read of an absent key of a
    Go map yields [false]. *)
Definition scan_event (final : bool) (highWaterMark : Z) (st : scan) (event : Z)
  : result scan :=
  let value := int_of_uint64 event in
  if value <? 0 then
    Ok (mkScan (seen st) (countSeen st) (outOfRange st + 1) (maxValue st))
  else if (highWaterMark <=? value) && final then
    Ok (mkScan (seen st) (countSeen st + 1) (outOfRange st + 1) (maxValue st))
  else if (highWaterMark <=? value) && negb final then
    Ok st
  else if default false (seen st !! value) then
    Exit (DuplicateValue value)
  else
    Ok (mkScan (<[value := true]> (seen st)) (countSeen st + 1) (outOfRange st)
               (if maxValue st <? value then value else maxValue st)).

Fixpoint scan_page (final : bool) (highWaterMark : Z) (events : list Z) (st : scan)
  : result scan :=
  match events with
  | [] => Ok st
  | event :: rest =>
      st' ← scan_event final highWaterMark st event;
      scan_page final highWaterMark rest st'
  end.

(** [for offset := 0; ; offset += pageSize]: the node's answers to the
    successive page queries are [pages], [None] standing for a failed query;
    once they are used up the node answers with the empty page. *)
Fixpoint scan_pages (final : bool) (highWaterMark : Z)
    (pages : list (option (list Z))) (offset : Z) (st : scan) : result scan :=
  match pages with
  | [] => Ok st
  | None :: _ => Exit (PageQueryFailed offset)
  | Some [] :: _ => Ok st
  | Some events :: rest =>
      st' ← scan_page final highWaterMark events st;
      scan_pages final highWaterMark rest (offset + pageSize) st'
  end.

(** [for value, ok := range seen { if !ok { ... missed++ } }] *)
Definition count_missed (seen : gmap Z bool) : Z :=
  map_fold (fun (_ : Z) (ok : bool) (missed : Z) => if ok then missed else missed + 1)
           0 seen.

(** Every index below the high-water mark has an entry, and the rows counted
    beyond those that filled an entry are all among the out-of-range ones. *)
Definition scan_inv (h : Z) (st : scan) : Prop :=
  (forall k, 0 <= k < h -> is_Some (seen st !! k)) /\
  0 <= countSeen st + count_missed (seen st) - Z.max 0 h <= outOfRange st.

(** [seen] holds an entry for each index below the high-water mark and for
    nothing else, and the entry tells whether the index is among [vals]. *)
Definition seen_tells (h : Z) (vals : list Z) (m : gmap Z bool) : Prop :=
  forall k : Z,
    m !! k = if decide (0 <= k < h) then Some (bool_decide (k ∈ vals)) else None.

(** In a pass made while the writers run, a row counted is an entry filled. *)
Definition balanced (h : Z) (st : scan) : Prop :=
  (forall k, 0 <= k < h -> is_Some (seen st !! k)) /\
  countSeen st + count_missed (seen st) = Z.max 0 h.

(** [max] is the greatest value met so far below the high-water mark. *)
Definition max_tracked (h : Z) (vals : list Z) (st : scan) : Prop :=
  0 <= maxValue st /\
  (forall v, v ∈ vals -> 0 <= v < h -> v <= maxValue st) /\
  (maxValue st = 0 \/ (maxValue st ∈ vals /\ 0 <= maxValue st < h)).

(** What one node answers during one pass: its aggregate count ([None] when
    the query fails) and its pages. *)
Record node : Type := mkNode {
  aggregateCount : option Z;
  eventPages : list (option (list Z))
}.

Inductive verdict : Type := Mismatch | Passed | Failed.

(** What the pass prints for one node. *)
Record report : Type := mkReport {
  highWaterMark : Z;
  locals : scan;
  missed : Z;
  outcome : verdict
}.

(** One iteration of [for i, client := range clients]. *)
Definition validate_node (final : bool) (i : nat) (client : node)
    (missingCount : gmap string Z) : result (gmap string Z * report) :=
  match aggregateCount client with
  | None => Exit AggregateQueryFailed
  | Some hwm =>
      st ← scan_pages final hwm (eventPages client) 0 (init_scan hwm);
      let missed := count_missed (seen st) in
      if negb (countSeen st =? hwm) then
        Ok (missingCount, mkReport hwm st missed Mismatch)
      else
        let passFail :=
          if (0 <? outOfRange st) || (0 <? missed) then Failed else Passed in
        match servers !! i with
        | None => Exit (ServerIndexOutOfRange i)
        | Some server =>
            Ok (<[server := missed]> missingCount, mkReport hwm st missed passFail)
        end
  end.

(** The state the process is left in by [validate]: the missing-count table,
    the reports printed so far, and the cause when the process exited. *)
Record validated : Type := mkValidated {
  table : gmap string Z;
  reports : list report;
  exited : option exit_cause
}.

Fixpoint validate_from (final : bool) (i : nat) (clients : list node)
    (missingCount : gmap string Z) (printed : list report) : validated :=
  match clients with
  | [] => mkValidated missingCount printed None
  | client :: rest =>
      match validate_node final i client missingCount with
      | Exit c => mkValidated missingCount printed (Some c)
      | Ok (missingCount', r) =>
          validate_from final (S i) rest missingCount' (printed ++ [r])
      end
  end.

(** A node that answers with the aggregate count [h] and the one page [rows]. *)
Definition scenario (h : Z) (rows : list Z) : node := mkNode (Some h) [Some rows].

(** What the pass over one node left behind, for display: the entries of the
    table, then the high-water mark, [countSeen], [outOfRange], [missed] and
    the verdict. *)
Definition node_summary (x : result (gmap string Z * report))
  : option (list (string * Z) * (Z * Z * Z * Z * verdict)) :=
  match x with
  | Ok (tbl, r) =>
      Some (map_to_list tbl,
            (highWaterMark r, countSeen (locals r), outOfRange (locals r),
             missed r, outcome r))
  | Exit _ => None
  end.

Definition validate (clients : list node) (final : bool)
    (missingCount : gmap string Z) : validated :=
  validate_from final 0 clients missingCount [].

End Validation.

(** ** Configuration of a run *)

Record config : Type := mkConfig {
  workers : nat;
  max_events : Z;
  validation_interval : Z
}.

(** The constants of [main.go]. *)
Definition main_config : config :=
  mkConfig WORKERS MAX_EVENTS VALIDATION_INTERVAL.

(** ** The writers ([addEvent], [runEventSimulator]) *)

Module Writers.

Definition time : Type := Z.

(** What comes back from [client.MutateRaw] and from decoding it:
    [rpc_error] is [err != nil] of the call, [decode_error] is [err != nil]
    of [json.Unmarshal], and [echoed] holds the values of
    [response.AddEvent.Event] as the decoder left them. *)
Record response : Type := mkResponse {
  rpc_error : bool;
  decode_error : bool;
  echoed : list Z
}.

(** The lines written to [error-<id>.log]. *)
Inductive log_line : Type :=
| ErrorAddingEvent
| ErrorUnmarshaling
| FailedToAddEvent (value : Z)
| ValueMismatch (expected got : Z).

Inductive returned : Type :=
| Return (value : Z)
| Panic.

(** [addEvent], lines 202-205: the locked read-and-increment of [count]. *)
Definition reserve (count : Z) : Z * Z := (count, uint64_wrap (count + 1)).

(** [addEvent], lines 231-233: [insertTime[int(value)] = time.Now()]. *)
Definition stamp (value : Z) (now : time) (insertTime : gmap Z time)
  : gmap Z time :=
  <[int_of_uint64 value := now]> insertTime.

(** [addEvent], lines 236-275: what is done with the answer to the write.
    A line written to the log file is a line appended to it. *)
Definition handle_response (value : Z) (resp : response)
    (errLog : list log_line) : list log_line * returned :=
  let errLog := if rpc_error resp then errLog ++ [ErrorAddingEvent] else errLog in
  let errLog := if decode_error resp then errLog ++ [ErrorUnmarshaling] else errLog in
  match echoed resp with
  | [got] =>
      if negb (got =? value)
      then (errLog ++ [ValueMismatch value got], Panic)
      else (errLog, Return value)
  | _ => (errLog ++ [FailedToAddEvent value], Return value)
  end.

(** [addEvent] from entry to exit when nothing else runs in between. The two
    [randInt] picks only choose where the value goes. *)
Definition addEvent (now : time) (resp : response)
    (count : Z) (insertTime : gmap Z time) (errLog : list log_line)
  : Z * gmap Z time * list log_line * returned :=
  let '(value, count) := reserve count in
  let insertTime := stamp value now insertTime in
  let '(errLog, ret) := handle_response value resp errLog in
  (count, insertTime, errLog, ret).

(** The lines that [handle_response] adds to the log, listed. *)
Definition lines_logged (value : Z) (resp : response) : list log_line :=
  (if rpc_error resp then [ErrorAddingEvent] else []) ++
  (if decode_error resp then [ErrorUnmarshaling] else []) ++
  match echoed resp with
  | [got] => if got =? value then [] else [ValueMismatch value got]
  | _ => [FailedToAddEvent value]
  end.

(** Where a worker goroutine is. *)
Inductive pc : Type :=
| AtTicker
| Reserved (value : Z)
| Stamped (value : Z) (personID : string) (client : nat)
| Stopped
| Aborted.

(** What has happened, as seen from outside a worker. *)
Inductive event : Type :=
| EvReserve (w : nat) (value : Z)
| EvStamp (w : nat) (value : Z) (now : time)
| EvMutate (w : nat) (client : nat) (value : Z) (personID : string)
| EvPanic (w : nat).

(** The process: the globals [count] and [insertTime], one program point
    and one error log per worker, and the history of events, latest first. *)
Record system : Type := mkSystem {
  count : Z;
  insertTime : gmap Z time;
  pcs : list pc;
  errLogs : list (list log_line);
  panicked : bool;
  history : list event
}.

(** The moves of the process. The two critical sections of [addEvent] are
    one move each; the call to the node and the handling of its answer touch
    nothing shared and are one move. The context of [main] is never
    cancelled, so a worker leaves its loop through line 185 only. A move that
    is not enabled leaves the process as it is, and a process that has
    panicked moves no more; an exit of the process from the validation side
    just ends the run, every prefix of a run being a run. *)
Inductive action : Type :=
| Tick (w : nat)
| Stamp (w : nat) (person client : nat) (now : time)
| Send (w : nat) (resp : response).

(** The process when every worker has opened its log (lines 172-176) and
    waits for its first tick; the log files are taken as empty. A worker whose
    log can not be opened panics there, before it has touched anything
    shared: such a process does not get to this state. *)
Definition init (cfg : config) : system :=
  mkSystem 0 ∅ (replicate (workers cfg) AtTicker) (replicate (workers cfg) [])
           false [].

Definition step (cfg : config) (s : system) (a : action) : system :=
  if panicked s then s else
  match a with
  | Tick w =>
      match pcs s !! w with
      | Some AtTicker =>
          let '(value, count') := reserve (count s) in
          mkSystem count' (insertTime s) (<[w := Reserved value]> (pcs s))
                   (errLogs s) false (EvReserve w value :: history s)
      | _ => s
      end
  | Stamp w person client now =>
      match pcs s !! w, people !! person with
      | Some (Reserved value), Some personID =>
          if (client <? length servers)%nat then
            mkSystem (count s) (stamp value now (insertTime s))
                     (<[w := Stamped value personID client]> (pcs s))
                     (errLogs s) false (EvStamp w value now :: history s)
          else s
      | _, _ => s
      end
  | Send w resp =>
      match pcs s !! w with
      | Some (Stamped value personID client) =>
          let '(errLog, ret) :=
            handle_response value resp (default [] (errLogs s !! w)) in
          match ret with
          | Panic =>
              mkSystem (count s) (insertTime s) (<[w := Aborted]> (pcs s))
                       (<[w := errLog]> (errLogs s)) true
                       (EvPanic w :: EvMutate w client value personID :: history s)
          | Return eventValue =>
              mkSystem (count s) (insertTime s)
                       (<[w := if max_events cfg <=? eventValue
                               then Stopped else AtTicker]> (pcs s))
                       (<[w := errLog]> (errLogs s)) false
                       (EvMutate w client value personID :: history s)
          end
      | _ => s
      end
  end.

Definition run (cfg : config) (acts : list action) : system :=
  foldl (step cfg) (init cfg) acts.

(** Readings of a history. *)
Definition reserved_value (e : event) : option Z :=
  match e with EvReserve _ value => Some value | _ => None end.

Definition submitted_value (e : event) : option Z :=
  match e with EvMutate _ _ value _ => Some value | _ => None end.

(** The values reserved, in the order they were issued. *)
Definition reserved (s : system) : list Z := omap reserved_value (rev (history s)).

(** The values sent to a node, in the order they were sent. *)
Definition submitted (s : system) : list Z := omap submitted_value (rev (history s)).

(** The value a worker has reserved and not yet sent. *)
Definition holding (p : pc) : option Z :=
  match p with
  | Reserved value | Stamped value _ _ => Some value
  | _ => None
  end.

Definition held (ps : list pc) : list Z := omap holding ps.

(** A worker that will not come back to its ticker: it has stopped, or the
    value it holds has reached the ceiling. *)
Definition leaving (ceiling : Z) (p : pc) : bool :=
  match p with
  | Reserved value | Stamped value _ _ => ceiling <=? value
  | Stopped => true
  | AtTicker | Aborted => false
  end.

Fixpoint count_leaving (ceiling : Z) (ps : list pc) : Z :=
  match ps with
  | [] => 0
  | p :: rest => (if leaving ceiling p then 1 else 0) + count_leaving ceiling rest
  end.

(** The bookkeeping of the counter: the values issued are those below
    [count], at most one value at or above the ceiling has been issued per
    worker, and while the process runs the workers that are leaving are as
    many as those values. *)
Definition counted (cfg : config) (s : system) : Prop :=
  reserved s = seqZ 0 (count s) /\
  0 <= count s <= max_events cfg + Z.of_nat (workers cfg) /\
  length (errLogs s) = length (pcs s) /\
  (panicked s = false ->
     length (pcs s) = workers cfg /\
     count_leaving (max_events cfg) (pcs s) = Z.max 0 (count s - max_events cfg)).

(** Every value issued has been sent once or is still held by its worker. *)
Definition sent_or_held (s : system) : Prop :=
  submitted s ++ held (pcs s) ≡ₚ reserved s.

(** Every write was preceded by its entry in the ledger. *)
Definition stamped_first (s : system) : Prop :=
  (forall (later earlier : list event) (w client : nat) (value : Z) (personID : string),
     history s = later ++ EvMutate w client value personID :: earlier ->
     exists now, EvStamp w value now ∈ earlier) /\
  (forall (w : nat) (value : Z) (personID : string) (client : nat),
     pcs s !! w = Some (Stamped value personID client) ->
     (exists now, EvStamp w value now ∈ history s) /\
     is_Some (insertTime s !! int_of_uint64 value)) /\
  (forall value : Z,
     value ∈ submitted s -> is_Some (insertTime s !! int_of_uint64 value)).

(** Where the writes go: every write sent went to one of the nodes, for a
    seeded person, with a value that the same worker had reserved. *)
Definition targeted (cfg : config) (s : system) : Prop :=
  length (pcs s) = workers cfg /\
  (forall (later earlier : list event) (w client : nat) (value : Z)
          (personID : string),
     history s = later ++ EvMutate w client value personID :: earlier ->
     (client < length servers)%nat /\ personID ∈ people /\
     EvReserve w value ∈ earlier /\ (w < workers cfg)%nat) /\
  (forall (w : nat) (value : Z),
     pcs s !! w = Some (Reserved value) -> EvReserve w value ∈ history s) /\
  (forall (w : nat) (value : Z) (personID : string) (client : nat),
     pcs s !! w = Some (Stamped value personID client) ->
     (client < length servers)%nat /\ personID ∈ people /\
     EvReserve w value ∈ history s).

(** Why a worker is out of its loop: it has sent a value at or above the
    ceiling, and a worker that has sent one is out of its loop. *)
Definition settled (cfg : config) (s : system) : Prop :=
  (forall w : nat,
     pcs s !! w = Some Stopped ->
     exists (client : nat) (value : Z) (personID : string),
       max_events cfg <= value /\ EvMutate w client value personID ∈ history s) /\
  (forall (w client : nat) (value : Z) (personID : string),
     EvMutate w client value personID ∈ history s -> max_events cfg <= value ->
     pcs s !! w = Some Stopped \/ pcs s !! w = Some Aborted).


(** What the ledger holds: for every value that was stamped, the time of its
    stamp; and a value that was stamped was sent, or its worker is about to
    send it. *)
Definition ledger_times (s : system) : Prop :=
  forall (w : nat) (value : Z) (now : time),
    EvStamp w value now ∈ history s ->
    insertTime s !! int_of_uint64 value = Some now /\
    (value ∈ submitted s \/
     exists (personID : string) (client : nat),
       pcs s !! w = Some (Stamped value personID client)).

(** Whose entries the ledger holds: those of values that were sent, or that
    a worker is about to send. *)
Definition ledger_ok (s : system) : Prop :=
  forall key : Z,
    is_Some (insertTime s !! key) ->
    exists value : Z,
      key = int_of_uint64 value /\
      (value ∈ submitted s \/
       exists (w : nat) (personID : string) (client : nat),
         pcs s !! w = Some (Stamped value personID client)).

(** One worker alone, going [n] times round its loop from the value [from]
    on, every write being echoed back. *)
Definition quiet_round (w : nat) (value : Z) : list action :=
  [Tick w; Stamp w 0 0 0; Send w (mkResponse false false [value])].


End Writers.

(** ** The validation scheduler ([runValidationScheduler]) *)

Module Scheduler.

(** Where the scheduler goroutine is: blocked on its ticker, inside the
    catch-up loop of lines 147-161, returned, or gone with the process when a
    validation pass exited. *)
Inductive phase : Type :=
| Waiting
| CatchingUp
| Returned
| Exited (c : exit_cause).

(** One evaluation of the body of the catch-up loop reads the counter with
    [getCount()] and, when it validates, the nodes answer with [answers]. *)
Record poll : Type := mkPoll {
  observed : Z;
  answers : list Validation.node
}.

(** A validation pass that the scheduler ran to its end. *)
Record pass : Type := mkPass {
  threshold : Z;
  asked : poll;
  validation : Validation.validated
}.

Record scheduler : Type := mkScheduler {
  nextValidationAt : Z;
  at_ : phase;
  passes : list pass;
  missingCount : gmap string Z
}.

(** [nextValidationAt := uint64(VALIDATION_INTERVAL)], a constant conversion. *)
Definition start (cfg : config) : scheduler :=
  mkScheduler (validation_interval cfg) Waiting [] ∅.

(** Lines 148-160. The passes are kept latest first. *)
Definition poll_step (cfg : config) (s : scheduler) (p : poll) : scheduler :=
  match at_ s with
  | Returned | Exited _ => s
  | Waiting | CatchingUp =>
      let currentCount := observed p in
      if max_events cfg <=? currentCount then
        mkScheduler (nextValidationAt s) Returned (passes s) (missingCount s)
      else if currentCount <? nextValidationAt s then
        mkScheduler (nextValidationAt s) Waiting (passes s) (missingCount s)
      else
        let v := Validation.validate (answers p) false (missingCount s) in
        match Validation.exited v with
        | Some c =>
            mkScheduler (nextValidationAt s) (Exited c) (passes s)
                        (Validation.table v)
        | None =>
            mkScheduler
              (uint64_wrap (nextValidationAt s + validation_interval cfg))
              CatchingUp
              (mkPass (nextValidationAt s) p v :: passes s)
              (Validation.table v)
        end
  end.

Definition run (cfg : config) (polls : list poll) : scheduler :=
  foldl (poll_step cfg) (start cfg) polls.

(** The thresholds validated so far, in the order of the passes. *)
Definition thresholds (s : scheduler) : list Z := threshold <$> rev (passes s).

(** What holds of a pass that was run: it was triggered by a count that had
    reached its threshold and not the ceiling, it was a non-final pass, and
    it went through every node. *)
Definition pass_ok (cfg : config) (p : pass) : Prop :=
  threshold p <= observed (asked p) < max_events cfg /\
  (exists tbl : gmap string Z,
     validation p = Validation.validate (answers (asked p)) false tbl) /\
  Validation.exited (validation p) = None /\
  length (Validation.reports (validation p)) = length (answers (asked p)).

(** Every entry of the table of missing counts is 0. *)
Definition all_zero (tbl : gmap string Z) : Prop :=
  forall (key : string) (m : Z), tbl !! key = Some m -> m = 0 /\ key ∈ servers.

(** A node whose aggregate count, when it answers, is not negative. *)
Definition counts_up (c : Validation.node) : Prop :=
  forall h : Z, Validation.aggregateCount c = Some h -> 0 <= h.

(** The thresholds validated are the first multiples of the interval, and
    the next threshold is the multiple after them. *)
Definition in_step (cfg : config) (s : scheduler) : Prop :=
  let n := Z.of_nat (length (passes s)) in
  thresholds s = (fun k => k * validation_interval cfg) <$> seqZ 1 n /\
  nextValidationAt s = (n + 1) * validation_interval cfg /\
  Forall (pass_ok cfg) (passes s).

End Scheduler.

(** ** The backup scanner ([verification/checkBackup/main.go]) *)

Module BackupScanner.

(** The command line. *)
Record flags : Type := mkFlags {
  filePath : string;
  maxValue : Z;
  printMissing : bool
}.

(** What the JSON decoder makes of the file: its first token, then one
    element of the top-level array per call of [decoder.Decode], then the
    token after the last element, [closing_fails] telling whether reading it
    gives an error other than [io.EOF]. An element either fails to decode
    into [eventObject] or is an object, with or without the field
    [Event.value]. *)
Inductive opening : Type :=
| NoToken
| OtherToken
| ArrayStart.

Inductive element : Type :=
| Undecodable
| Object (EventValue : option Z).

Record contents : Type := mkContents {
  first_token : opening;
  elements : list element;
  closing_fails : bool
}.

(** The errors, each ending the program with [os.Exit(1)]. *)
Inductive failure : Type :=
| FileRequired
| MaxNotPositive
| OpenFile
| ReadStartToken
| ExpectedArray
| DecodeObject
| ReadEndToken.

(** Standard output of a run that ends normally: the missing values printed,
    then the three numbers of the line [checked=0..%d seen=%d missing=%d]. *)
Record listing : Type := mkListing {
  printed : list Z;
  checked_up_to : Z;
  totalValues : Z;
  missing : Z
}.

(** How the program ends: by one of its own [os.Exit(1)], by the Go runtime
    (a panic or a fatal error, exit status 2 and nothing on standard output),
    or at the end of [main]. *)
Inductive ending : Type :=
| Exit1 (f : failure)
| Crashed
| Finished (out : listing).

(** Lines 69-77: the body of the decoding loop for an object that decoded.
    The index is within the slice by the test before it. *)
Definition note (maxValue : Z) (st : list bool * Z) (obj : option Z)
  : list bool * Z :=
  match obj with
  | None => st
  | Some value =>
      if (0 <=? value) && (value <? maxValue) then
        if negb (default false (fst st !! Z.to_nat value)) then
          (<[Z.to_nat value := true]> (fst st), snd st + 1)
        else st
      else st
  end.

(** Lines 62-78: [for decoder.More()]. *)
Fixpoint decode_all (maxValue : Z) (els : list element) (st : list bool * Z)
  : option (list bool * Z) :=
  match els with
  | [] => Some st
  | Undecodable :: _ => None
  | Object obj :: rest => decode_all maxValue rest (note maxValue st obj)
  end.

(** Lines 88-96: [for i, ok := range seen], from index [i] on. *)
Fixpoint list_missing (printMissing : bool) (i : Z) (seen : list bool)
  : list Z * Z :=
  match seen with
  | [] => ([], 0)
  | ok :: rest =>
      let '(out, missing) := list_missing printMissing (i + 1) rest in
      if ok then (out, missing)
      else (if printMissing then i :: out else out, missing + 1)
  end.

(** [main]; [file] is [None] when the file cannot be opened, and
    [allocated] tells whether the runtime provides the slice of line 59,
    [make([]bool, maxValue)]: for a length beyond what it can allocate it
    panics, or dies out of memory, and the program ends there. *)
Definition main (fl : flags) (file : option contents) (allocated : bool) : ending :=
  if String.eqb (filePath fl) EmptyString then Exit1 FileRequired
  else if maxValue fl <=? 0 then Exit1 MaxNotPositive
  else
    match file with
    | None => Exit1 OpenFile
    | Some c =>
        match first_token c with
        | NoToken => Exit1 ReadStartToken
        | OtherToken => Exit1 ExpectedArray
        | ArrayStart =>
            if negb allocated then Crashed
            else
              let seen := replicate (Z.to_nat (maxValue fl)) false in
              match decode_all (maxValue fl) (elements c) (seen, 0) with
              | None => Exit1 DecodeObject
              | Some (seen, totalValues) =>
                  if closing_fails c then Exit1 ReadEndToken
                  else
                    let '(out, missing) :=
                      list_missing (printMissing fl) 0 seen in
                    Finished (mkListing out (maxValue fl - 1) totalValues missing)
              end
        end
    end.

(** The values that the objects of a file carry. *)
Definition values_of (els : list element) : list Z :=
  omap (fun el => match el with Object (Some value) => Some value | _ => None end) els.

(** The slice [seen] tells, for each index, whether it is among [vals]. *)
Definition slice_tells (maxValue : Z) (vals : list Z) (st : list bool * Z) : Prop :=
  length (fst st) = Z.to_nat maxValue /\
  (forall i : nat, (i < Z.to_nat maxValue)%nat ->
     fst st !! i = Some (bool_decide (Z.of_nat i ∈ vals))) /\
  snd st = Z.of_nat (length (filter (fun k => k ∈ vals) (seqZ 0 maxValue))).

End BackupScanner.

(** ** The reporter ([runReporting]) *)

Module Reporter.

(** Line 122, [remaining := MAX_EVENTS - currentCount], a subtraction of
    [uint64]s, and the test of line 126 that ends the reporter. The rate and
    the estimate printed with them are floating point and are left out. *)
Definition remaining (cfg : config) (currentCount : Z) : Z :=
  uint64_wrap (max_events cfg - currentCount).

Definition returns (cfg : config) (currentCount : Z) : bool :=
  max_events cfg <=? currentCount.

End Reporter.

(** * Properties *)

(** ** Machine integers *)

Lemma int_of_uint64_small (u : Z) : 0 <= u < 2 ^ 63 -> int_of_uint64 u = u.
Proof.
  intros Hu. unfold int_of_uint64.
  rewrite Z.mod_small; lia.
Qed.

Lemma uint64_wrap_small (z : Z) : 0 <= z < 2 ^ 64 -> uint64_wrap z = z.
Proof. intros Hz. unfold uint64_wrap. apply Z.mod_small; lia. Qed.

(** Reading a [uint64] as an [int] loses nothing. *)
Lemma int_of_uint64_inj (u u' : Z) :
  0 <= u < 2 ^ 64 -> 0 <= u' < 2 ^ 64 ->
  int_of_uint64 u = int_of_uint64 u' -> u = u'.
Proof.
  intros Hu Hu'.
  assert (forall z, 0 <= z < 2 ^ 64 ->
            int_of_uint64 z = if z <? 2 ^ 63 then z else z - 2 ^ 64) as Hcases.
  { intros z Hz. unfold int_of_uint64. destruct (Z.ltb_spec z (2 ^ 63)).
    - rewrite Z.mod_small; lia.
    - replace (z + 2 ^ 63) with (z - 2 ^ 63 + 1 * 2 ^ 64) by lia.
      rewrite Z_mod_plus_full, Z.mod_small; lia. }
  rewrite (Hcases u Hu), (Hcases u' Hu').
  destruct (Z.ltb_spec u (2 ^ 63)), (Z.ltb_spec u' (2 ^ 63)); lia.
Qed.

(** ** The validation engine *)

Section ValidationFacts.
Import Validation.

Implicit Types (st : scan) (m : gmap Z bool) (h value : Z) (final : bool).

Local Abbreviation tally := (fun (_ : Z) (ok : bool) (n : Z) => if ok then n else n + 1).

Lemma count_missed_empty : count_missed ∅ = 0.
Proof. unfold count_missed. apply map_fold_empty. Qed.

Lemma count_missed_insert_fresh m k (b : bool) :
  m !! k = None ->
  count_missed (<[k := b]> m) = (if b then 0 else 1) + count_missed m.
Proof.
  intros Hk. unfold count_missed.
  rewrite map_fold_insert_L.
  - destruct b; lia.
  - intros ? ? [] [] ? _ _ _; lia.
  - exact Hk.
Qed.

Lemma count_missed_delete m k (b : bool) :
  m !! k = Some b ->
  count_missed m = (if b then 0 else 1) + count_missed (delete k m).
Proof.
  intros Hk. unfold count_missed.
  rewrite (map_fold_delete_L _ _ k b m).
  - destruct b; lia.
  - intros ? ? [] [] ? _ _ _; lia.
  - exact Hk.
Qed.

(** Marking a value that was present and unseen removes one missing value. *)
Lemma count_missed_mark m k :
  m !! k = Some false ->
  count_missed (<[k := true]> m) = count_missed m - 1.
Proof.
  intros Hk.
  rewrite (count_missed_delete m k false Hk).
  rewrite <- (insert_delete_eq m k true).
  rewrite count_missed_insert_fresh by apply lookup_delete_eq.
  lia.
Qed.

Lemma count_missed_nonneg m : 0 <= count_missed m.
Proof.
  unfold count_missed.
  apply (map_fold_weak_ind (fun r _ => 0 <= r)); [lia |].
  intros i [] ? r _ Hr; lia.
Qed.

Lemma foldl_unseen_lookup (l : list Z) m k :
  foldl (fun m i => <[i := false]> m) m l !! k =
    if decide (k ∈ l) then Some false else m !! k.
Proof.
  revert m. induction l as [|a l IH]; intros m; simpl.
  - destruct (decide (k ∈ [])) as [H|H]; [by apply elem_of_nil in H | done].
  - rewrite IH.
    destruct (decide (k ∈ l)) as [H1|H1], (decide (k ∈ a :: l)) as [H2|H2];
      try done.
    + exfalso. apply H2. by apply list_elem_of_further.
    + apply elem_of_cons in H2 as [-> | ?]; [apply lookup_insert_eq | done].
    + rewrite lookup_insert_ne; [done |].
      intros ->. apply H2, list_elem_of_here.
Qed.

Lemma foldl_unseen_count (l : list Z) m :
  NoDup l -> (forall k, k ∈ l -> m !! k = None) ->
  count_missed (foldl (fun m i => <[i := false]> m) m l) =
    count_missed m + Z.of_nat (length l).
Proof.
  revert m. induction l as [|a l IH]; intros m Hnd Hfresh; simpl.
  - lia.
  - apply NoDup_cons in Hnd as [Ha Hnd].
    rewrite IH; [| done |].
    + rewrite count_missed_insert_fresh by (apply Hfresh, list_elem_of_here). lia.
    + intros k Hk. rewrite lookup_insert_ne.
      * apply Hfresh. by apply list_elem_of_further.
      * intros ->. done.
Qed.

Lemma lookup_init_seen h k :
  init_seen h !! k = if decide (0 <= k < h) then Some false else None.
Proof.
  unfold init_seen. rewrite foldl_unseen_lookup, lookup_empty.
  destruct (decide (k ∈ seqZ 0 h)) as [Hin|Hnin].
  - apply elem_of_seqZ in Hin. rewrite decide_True; [done | lia].
  - rewrite decide_False; [done |]. intros ?. apply Hnin, elem_of_seqZ. lia.
Qed.

Lemma count_missed_init h : count_missed (init_seen h) = Z.max 0 h.
Proof.
  unfold init_seen. rewrite foldl_unseen_count.
  - rewrite count_missed_empty, length_seqZ. lia.
  - apply NoDup_seqZ.
  - intros. apply lookup_empty.
Qed.

(** *** Sequencing *)

Lemma scan_page_app final h (l1 l2 : list Z) st :
  scan_page final h (l1 ++ l2) st =
    st' ← scan_page final h l1 st; scan_page final h l2 st'.
Proof.
  revert st. induction l1 as [|e l1 IH]; intros st; simpl; [done |].
  destruct (scan_event final h st e) as [st1|c]; simpl; [apply IH | done].
Qed.

(** Pages that hold rows are enumerated as one stream. *)
Lemma scan_pages_stream final h (before : list (list Z))
    (rest : list (option (list Z))) (offset : Z) st :
  Forall (fun p => p <> []) before ->
  scan_pages final h ((Some <$> before) ++ rest) offset st =
    st' ← scan_page final h (concat before) st;
    scan_pages final h rest (offset + pageSize * Z.of_nat (length before)) st'.
Proof.
  intros Hne. revert offset st.
  induction Hne as [|p before Hp _ IH]; intros offset st.
  - simpl. f_equal. lia.
  - cbn [fmap list_fmap app concat length].
    destruct p as [|e p]; [done |].
    cbn [scan_pages]. rewrite scan_page_app.
    destruct (scan_page final h (e :: p) st) as [st1|c]; [| done].
    cbn [mbind result_bind]. rewrite IH. do 2 f_equal. lia.
Qed.

(** A page can be replaced by one that scans alike, as long as neither is
    the empty page that ends the enumeration. *)
Lemma scan_pages_congr final h (before after : list (option (list Z)))
    (p p' : list Z) (offset : Z) st :
  p <> [] -> p' <> [] ->
  (forall st0, scan_page final h p st0 = scan_page final h p' st0) ->
  scan_pages final h (before ++ Some p :: after) offset st =
  scan_pages final h (before ++ Some p' :: after) offset st.
Proof.
  intros Hp Hp' Heq. revert offset st.
  induction before as [|[q|] before IH]; intros offset st.
  - destruct p as [|e p]; [done |]. destruct p' as [|e' p']; [done |].
    cbn [app scan_pages]. by rewrite Heq.
  - destruct q as [|e q]; [done |]. cbn [app scan_pages].
    destruct (scan_page final h (e :: q) st) as [st1|c]; [apply IH | done].
  - done.
Qed.

(** *** What a finished scan has counted *)

Lemma scan_inv_init h : scan_inv h (init_scan h).
Proof.
  split; simpl.
  - intros k Hk. rewrite lookup_init_seen, decide_True by done. by eexists.
  - rewrite count_missed_init. lia.
Qed.

Lemma scan_event_inv final h st st' (e : Z) :
  scan_inv h st -> scan_event final h st e = Ok st' -> scan_inv h st'.
Proof.
  intros [Hdom Hcnt]. unfold scan_event.
  destruct (int_of_uint64 e <? 0) eqn:Hneg.
  { intros [= <-]. split; simpl; [done | lia]. }
  destruct ((h <=? int_of_uint64 e) && final) eqn:Hhi.
  { intros [= <-]. split; simpl; [done | lia]. }
  destruct ((h <=? int_of_uint64 e) && negb final) eqn:Hskip.
  { intros [= <-]. by split. }
  assert (0 <= int_of_uint64 e < h) as Hin.
  { destruct final; simpl in *; rewrite ?andb_true_r, ?andb_false_r in *; lia. }
  destruct (Hdom _ Hin) as [b Hb]. rewrite Hb. simpl.
  destruct b; [done |]. intros [= <-]. split; simpl.
  - intros k Hk. destruct (decide (int_of_uint64 e = k)) as [<-|Hne].
    + rewrite lookup_insert_eq. by eexists.
    + rewrite lookup_insert_ne by done. by apply Hdom.
  - rewrite count_missed_mark by done. lia.
Qed.

Lemma scan_page_inv final h (l : list Z) st st' :
  scan_inv h st -> scan_page final h l st = Ok st' -> scan_inv h st'.
Proof.
  revert st. induction l as [|e l IH]; intros st Hinv; simpl.
  - by intros [= <-].
  - destruct (scan_event final h st e) as [st1|c] eqn:He; [| done].
    simpl. apply IH. by eapply scan_event_inv.
Qed.

Lemma scan_pages_inv final h (ps : list (option (list Z))) (offset : Z) st st' :
  scan_inv h st -> scan_pages final h ps offset st = Ok st' -> scan_inv h st'.
Proof.
  revert offset st. induction ps as [|[p|] ps IH]; intros offset st Hinv.
  - by intros [= <-].
  - destruct p as [|e p]; [by intros [= <-] |]. cbn [scan_pages].
    destruct (scan_page final h (e :: p) st) as [st1|c] eqn:Hp; [| done].
    cbn [mbind result_bind]. apply IH. by eapply scan_page_inv.
  - done.
Qed.

(** A value that a scan went through and that lies below the high-water mark
    is marked in [seen], and marks are never removed. *)
Lemma scan_event_marks final h st st' (e : Z) (k : Z) :
  scan_event final h st e = Ok st' ->
  (seen st !! k = Some true -> seen st' !! k = Some true) /\
  (0 <= k < h -> k = int_of_uint64 e -> seen st' !! k = Some true).
Proof.
  unfold scan_event.
  destruct (int_of_uint64 e <? 0) eqn:Hneg.
  { intros [= <-]. simpl. split; [done | lia]. }
  destruct ((h <=? int_of_uint64 e) && final) eqn:Hhi.
  { intros [= <-]. simpl. split; [done |]. intros ? ->.
    apply andb_true_iff in Hhi. lia. }
  destruct ((h <=? int_of_uint64 e) && negb final) eqn:Hskip.
  { intros [= <-]. split; [done |]. intros ? ->.
    apply andb_true_iff in Hskip. lia. }
  destruct (default false (seen st !! int_of_uint64 e)) eqn:Hdup; [done |].
  intros [= <-]. simpl. split.
  - intros Hk. destruct (decide (int_of_uint64 e = k)) as [<-|Hne].
    + apply lookup_insert_eq.
    + by rewrite lookup_insert_ne.
  - intros _ ->. apply lookup_insert_eq.
Qed.

Lemma scan_page_marks final h (l : list Z) st st' (k : Z) :
  scan_page final h l st = Ok st' ->
  (seen st !! k = Some true -> seen st' !! k = Some true) /\
  (0 <= k < h -> k ∈ int_of_uint64 <$> l -> seen st' !! k = Some true).
Proof.
  revert st. induction l as [|e l IH]; intros st; simpl.
  - intros [= <-]. split; [done |]. intros _ Hin. by apply elem_of_nil in Hin.
  - destruct (scan_event final h st e) as [st1|c] eqn:He; [| done].
    simpl. intros Hl.
    destruct (scan_event_marks _ _ _ _ _ k He) as [Hkeep Hnew].
    destruct (IH _ Hl) as [Hkeep' Hnew'].
    split; [auto |].
    intros Hk Hin. apply elem_of_cons in Hin as [->|Hin]; auto.
Qed.






End ValidationFacts.

(** ** Claims about the validation engine *)

Section ValidationClaims.
Import Validation.

Implicit Types (st : scan) (h : Z) (final : bool) (tbl : gmap string Z).

(** What [validate_node] returns, spelled out. *)
Lemma validate_node_inv final (i : nat) (client : node) tbl tbl' (r : report) :
  validate_node final i client tbl = Ok (tbl', r) ->
  exists st,
    aggregateCount client = Some (highWaterMark r) /\
    scan_pages final (highWaterMark r) (eventPages client) 0
      (init_scan (highWaterMark r)) = Ok st /\
    locals r = st /\
    missed r = count_missed (seen st) /\
    ((countSeen st <> highWaterMark r /\ tbl' = tbl /\ outcome r = Mismatch) \/
     (countSeen st = highWaterMark r /\
      (exists server, servers !! i = Some server /\
                      tbl' = <[server := missed r]> tbl) /\
      outcome r =
        if (0 <? outOfRange st) || (0 <? missed r) then Failed else Passed)).
Proof.
  unfold validate_node.
  destruct (aggregateCount client) as [hwm|]; [| done].
  destruct (scan_pages final hwm (eventPages client) 0 (init_scan hwm))
    as [st|c] eqn:Hscan; [| done].
  cbn [mbind result_bind].
  destruct (countSeen st =? hwm) eqn:Hcnt; cbn [negb].
  - destruct (servers !! i) as [server|] eqn:Hsrv; [| done].
    intros [= <- <-]. exists st. cbn.
    repeat split; try done. right.
    split; [lia |]. split; [by exists server | done].
  - intros [= <- <-]. exists st. cbn.
    repeat split; try done. left. split; [lia | done].
Qed.

Lemma node_summary_Some (x : result (gmap string Z * report))
    (entries : list (string * Z)) (h c o m : Z) (v : verdict) :
  node_summary x = Some (entries, (h, c, o, m, v)) ->
  exists (tbl' : gmap string Z) (r : report),
    x = Ok (tbl', r) /\ map_to_list tbl' = entries /\ highWaterMark r = h /\
    countSeen (locals r) = c /\ outOfRange (locals r) = o /\ missed r = m /\
    outcome r = v.
Proof.
  destruct x as [[tbl' r]|]; [| done]. cbn [node_summary].
  intros [= <- <- <- <- <- <-]. by exists tbl', r.
Qed.

(** The scenarios of the specification, final pass. *)
Example scenario_A :
  node_summary (validate_node true 0 (scenario 5 [0; 1; 2; 3; 4]) ∅)
  = Some ([("http://localhost:8080"%string, 0)], (5, 5, 0, 0, Passed)).
Proof. vm_compute. reflexivity. Qed.

Example scenario_B :
  validate_node true 0 (scenario 5 [0; 1; 1; 3; 4]) ∅ = Exit (DuplicateValue 1).
Proof. vm_compute. reflexivity. Qed.

Example scenario_C :
  node_summary (validate_node true 0 (scenario 5 [0; 2; 3; 4]) ∅)
  = Some ([], (5, 4, 0, 1, Mismatch)).
Proof. vm_compute. reflexivity. Qed.

Example scenario_D_final :
  node_summary (validate_node true 0 (scenario 5 [0; 1; 2; 3; 4; 7]) ∅)
  = Some ([], (5, 6, 1, 0, Mismatch)).
Proof. vm_compute. reflexivity. Qed.

Example scenario_D_running :
  node_summary (validate_node false 0 (scenario 5 [0; 1; 2; 3; 4; 7]) ∅)
  = Some ([("http://localhost:8080"%string, 0)], (5, 5, 0, 0, Passed)).
Proof. vm_compute. reflexivity. Qed.

Example scenario_gap_and_stray :
  node_summary (validate_node true 0 (scenario 5 [0; 2; 3; 4; 7]) ∅)
  = Some ([("http://localhost:8080"%string, 1)], (5, 5, 1, 1, Failed)).
Proof. vm_compute. reflexivity. Qed.

(** C3 (as stated, refuted). Scenario C: a final pass with high-water mark 5
    over the rows 0, 2, 3, 4 finds one value missing and still gives no
    verdict: the count check comes first, the pass is reported as a mismatch
    and the table of missing counts is not written. *)
Lemma scenario_C_verdict_withheld :
  exists (tbl' : gmap string Z) (r : report),
    validate_node true 0 (scenario 5 [0; 2; 3; 4]) ∅ = Ok (tbl', r) /\
    map_to_list tbl' = [] /\
    countSeen (locals r) = 4 /\ outOfRange (locals r) = 0 /\ missed r = 1 /\
    outcome r = Mismatch /\ outcome r <> Failed.
Proof.
  destruct (node_summary_Some _ _ _ _ _ _ _ scenario_C)
    as (tbl' & r & Hv & Htbl & _ & Hc & Ho & Hm & Hout).
  exists tbl', r. rewrite Hout. repeat split; try done.
Qed.

(** C3 (amended). A pass over a node gives a verdict exactly when the number
    of rows it counted equals the high-water mark; the verdict is then
    [Failed] when a row was out of range or a value is missing and [Passed]
    otherwise. Whenever the two counts differ the pass is reported as a
    mismatch, whatever the other counters hold. *)
Theorem verdict_follows_count_check final (i : nat) (client : node) tbl tbl'
    (r : report) :
  validate_node final i client tbl = Ok (tbl', r) ->
  (outcome r = Mismatch <-> countSeen (locals r) <> highWaterMark r) /\
  (outcome r = Failed <->
     countSeen (locals r) = highWaterMark r /\
     (0 < outOfRange (locals r) \/ 0 < missed r)) /\
  (outcome r = Passed <->
     countSeen (locals r) = highWaterMark r /\
     outOfRange (locals r) <= 0 /\ missed r <= 0).
Proof.
  intros Hv. apply validate_node_inv in Hv as (st & _ & _ & -> & Hm & Hcase).
  destruct Hcase as [(Hne & _ & ->) | (Heq & _ & ->)].
  - intuition (try discriminate; lia).
  - destruct (Z.ltb_spec 0 (outOfRange st)); [| destruct (Z.ltb_spec 0 (missed r))];
      cbn [orb]; intuition (try discriminate; lia).
Qed.

Lemma verdict_follows_count_check_witness :
  exists (tbl' : gmap string Z) (r : report),
    validate_node true 0 (scenario 5 [0; 2; 3; 4; 7]) ∅ = Ok (tbl', r) /\
    (outcome r = Failed <->
       countSeen (locals r) = highWaterMark r /\
       (0 < outOfRange (locals r) \/ 0 < missed r)).
Proof.
  destruct (node_summary_Some _ _ _ _ _ _ _ scenario_gap_and_stray)
    as (tbl' & r & Hv & _).
  exists tbl', r. split; [exact Hv |].
  exact (proj1 (proj2 (verdict_follows_count_check true 0 _ ∅ tbl' r Hv))).
Defined.

(** C10. A pass over a node that ends with [countSeen] different from the
    high-water mark leaves the table of missing counts as it was; the entry
    of the node is written, with the missing count of the pass, exactly on
    the passes where the two are equal. *)
Theorem mismatch_leaves_table final (i : nat) (client : node) tbl tbl'
    (r : report) :
  validate_node final i client tbl = Ok (tbl', r) ->
  (countSeen (locals r) <> highWaterMark r -> tbl' = tbl) /\
  (countSeen (locals r) = highWaterMark r ->
     exists server, servers !! i = Some server /\
                    tbl' = <[server := missed r]> tbl).
Proof.
  intros Hv. apply validate_node_inv in Hv as (st & _ & _ & -> & _ & Hcase).
  destruct Hcase as [(Hne & -> & _) | (Heq & Hsrv & _)]; split; done.
Qed.

Lemma mismatch_leaves_table_witness :
  exists (tbl' : gmap string Z) (r : report),
    validate_node true 0 (scenario 5 [0; 2; 3; 4]) ∅ = Ok (tbl', r) /\
    countSeen (locals r) <> highWaterMark r /\
    tbl' = ∅.
Proof.
  destruct (node_summary_Some _ _ _ _ _ _ _ scenario_C)
    as (tbl' & r & Hv & _ & Hh & Hc & _).
  assert (countSeen (locals r) <> highWaterMark r) as Hne
    by (rewrite Hh, Hc; discriminate).
  exists tbl', r. split; [exact Hv |]. split; [exact Hne |].
  exact (proj1 (mismatch_leaves_table true 0 _ ∅ tbl' r Hv) Hne).
Defined.

(** C4 (as stated, refuted). A final pass with high-water mark 5 over the
    rows 0, 2, 3, 4, 7 counts five rows, as many as the high-water mark, and
    yet reports one row out of range and one value missing. *)
Lemma counts_agree_with_flags_raised :
  exists (tbl' : gmap string Z) (r : report),
    validate_node true 0 (scenario 5 [0; 2; 3; 4; 7]) ∅ = Ok (tbl', r) /\
    countSeen (locals r) = highWaterMark r /\
    outOfRange (locals r) = 1 /\ missed r = 1.
Proof.
  destruct (node_summary_Some _ _ _ _ _ _ _ scenario_gap_and_stray)
    as (tbl' & r & Hv & _ & Hh & Hc & Ho & Hm & _).
  exists tbl', r. rewrite Hh, Hc. by repeat split.
Qed.

(** C4 (amended). In a final pass over a node whose aggregate count is not
    negative, if no row is out of range and no value is missing then
    [countSeen] equals the high-water mark. The converse does not hold: when
    the two are equal, each missing value is matched by an out-of-range row,
    and there may be some of both. *)
Theorem clean_final_pass_counts_agree (i : nat) (client : node) tbl tbl'
    (r : report) :
  validate_node true i client tbl = Ok (tbl', r) ->
  0 <= highWaterMark r ->
  (outOfRange (locals r) = 0 -> missed r = 0 ->
     countSeen (locals r) = highWaterMark r) /\
  (countSeen (locals r) = highWaterMark r ->
     0 <= missed r <= outOfRange (locals r)).
Proof.
  intros Hv Hh. apply validate_node_inv in Hv as (st & _ & Hscan & -> & Hm & _).
  apply scan_pages_inv in Hscan as [_ Hcnt]; [| apply scan_inv_init].
  rewrite <- Hm in Hcnt. pose proof (count_missed_nonneg (seen st)).
  split; intros; lia.
Qed.

Lemma clean_final_pass_counts_agree_witness :
  exists (tbl' : gmap string Z) (r : report),
    validate_node true 0 (scenario 5 [0; 1; 2; 3; 4]) ∅ = Ok (tbl', r) /\
    0 <= highWaterMark r /\
    outOfRange (locals r) = 0 /\ missed r = 0 /\
    countSeen (locals r) = highWaterMark r.
Proof.
  destruct (node_summary_Some _ _ _ _ _ _ _ scenario_A)
    as (tbl' & r & Hv & _ & Hh & _ & Ho & Hm & _).
  assert (0 <= highWaterMark r) as Hpos by (rewrite Hh; discriminate).
  exists tbl', r. split; [exact Hv |]. split; [exact Hpos |].
  split; [exact Ho |]. split; [exact Hm |].
  exact (proj1 (clean_final_pass_counts_agree 0 _ ∅ tbl' r Hv Hpos) Ho Hm).
Defined.

(** C5. When the enumeration of a node reaches a row whose value lies
    below the high-water mark and was already seen earlier in the pass (the
    rows before it having been scanned without an exit), the pass exits with
    that value as the duplicate reported. Neither the rest of the page, nor
    the later pages, nor the nodes that were still to be validated are looked
    at, and the table of missing counts and the reports printed are as they
    were: the outcome is a function of the rows up to the duplicate. *)
Theorem duplicate_halts_process final h (before : list (list Z))
    (pre : list Z) (v : Z) (post : list Z) (after : list (option (list Z)))
    (i : nat) (others : list node) tbl (printed : list report) st :
  Forall (fun p => p <> []) before ->
  scan_page final h (concat before ++ pre) (init_scan h) = Ok st ->
  0 <= int_of_uint64 v < h ->
  int_of_uint64 v ∈ int_of_uint64 <$> (concat before ++ pre) ->
  let client :=
    mkNode (Some h) ((Some <$> before) ++ Some (pre ++ v :: post) :: after) in
  validate_node final i client tbl = Exit (DuplicateValue (int_of_uint64 v)) /\
  validate_from final i (client :: others) tbl printed =
    mkValidated tbl printed (Some (DuplicateValue (int_of_uint64 v))).
Proof.
  intros Hne Hscan Hrange Hin client.
  assert (seen st !! int_of_uint64 v = Some true) as Hseen.
  { by apply (scan_page_marks _ _ _ _ _ (int_of_uint64 v) Hscan). }
  assert (validate_node final i client tbl
          = Exit (DuplicateValue (int_of_uint64 v))) as Hnode.
  { unfold validate_node, client. cbn [aggregateCount eventPages].
    rewrite scan_pages_stream by done.
    rewrite scan_page_app in Hscan.
    destruct (scan_page final h (concat before) (init_scan h)) as [st1|c] eqn:H1;
      [| done].
    cbn [mbind result_bind] in Hscan |- *.
    cbn [scan_pages]. destruct (pre ++ v :: post) as [|e1 l1] eqn:Hpage.
    { by destruct pre. }
    rewrite <- Hpage, scan_page_app, Hscan. cbn [mbind result_bind scan_page].
    unfold scan_event.
    destruct (Z.ltb_spec (int_of_uint64 v) 0); [lia |].
    destruct (Z.leb_spec h (int_of_uint64 v)); [lia |].
    cbn [andb]. rewrite Hseen. done. }
  split; [exact Hnode |].
  cbn [validate_from]. by rewrite Hnode.
Qed.

Lemma duplicate_halts_process_witness :
  validate_node true 0 (mkNode (Some 5) [Some [0; 1; 1; 3; 4]]) ∅
    = Exit (DuplicateValue (int_of_uint64 1)) /\
  validate_from true 0
    [mkNode (Some 5) [Some [0; 1; 1; 3; 4]]; scenario 5 [0; 1; 2; 3; 4]]
    ∅ [] = mkValidated ∅ [] (Some (DuplicateValue (int_of_uint64 1))).
Proof.
  destruct (scan_page true 5 [0; 1] (init_scan 5)) as [st|c] eqn:Hscan.
  - refine (duplicate_halts_process true 5 [] [0; 1] 1 [3; 4] [] 0
              [scenario 5 [0; 1; 2; 3; 4]] ∅ [] st _ Hscan _ _).
    + constructor.
    + vm_compute. split; [discriminate | reflexivity].
    + apply list_elem_of_further, list_elem_of_here.
  - exfalso.
    assert (match scan_page true 5 [0; 1] (init_scan 5) with
            | Ok _ => true | Exit _ => false end = true) as Hok
      by (vm_compute; reflexivity).
    rewrite Hscan in Hok. discriminate.
Defined.




End ValidationClaims.

(** ** The writers *)

Import Writers.

Implicit Types (s : system) (a : action) (w : nat) (ps : list pc) (cfg : config).

(** *** The moves, case by case *)

Lemma step_cases cfg s a :
  step cfg s a = s \/
  (panicked s = false /\ exists w,
     a = Tick w /\ pcs s !! w = Some AtTicker /\
     step cfg s a =
       mkSystem (uint64_wrap (count s + 1)) (insertTime s)
                (<[w := Reserved (count s)]> (pcs s)) (errLogs s) false
                (EvReserve w (count s) :: history s)) \/
  (panicked s = false /\ exists w person client now value personID,
     a = Stamp w person client now /\ pcs s !! w = Some (Reserved value) /\
     people !! person = Some personID /\ (client < length servers)%nat /\
     step cfg s a =
       mkSystem (count s) (stamp value now (insertTime s))
                (<[w := Stamped value personID client]> (pcs s)) (errLogs s) false
                (EvStamp w value now :: history s)) \/
  (panicked s = false /\ exists w resp value personID client errLog,
     a = Send w resp /\ pcs s !! w = Some (Stamped value personID client) /\
     handle_response value resp (default [] (errLogs s !! w)) = (errLog, Return value) /\
     step cfg s a =
       mkSystem (count s) (insertTime s)
                (<[w := if max_events cfg <=? value then Stopped else AtTicker]> (pcs s))
                (<[w := errLog]> (errLogs s)) false
                (EvMutate w client value personID :: history s)) \/
  (panicked s = false /\ exists w resp value personID client errLog,
     a = Send w resp /\ pcs s !! w = Some (Stamped value personID client) /\
     handle_response value resp (default [] (errLogs s !! w)) = (errLog, Panic) /\
     step cfg s a =
       mkSystem (count s) (insertTime s) (<[w := Aborted]> (pcs s))
                (<[w := errLog]> (errLogs s)) true
                (EvPanic w :: EvMutate w client value personID :: history s)).
Proof.
  unfold step. destruct (panicked s) eqn:Hp; [by left |].
  destruct a as [w | w person client now | w resp].
  - destruct (pcs s !! w) as [[]|] eqn:Hpc; try by left.
    right; left. split; [done |]. by exists w.
  - destruct (pcs s !! w) as [[]|] eqn:Hpc; try by left.
    destruct (people !! person) as [personID|] eqn:Hperson; [| by left].
    destruct (Nat.ltb_spec client (length servers)); [| by left].
    right; right; left. split; [done |]. by eexists _, _, _, _, _, _.
  - destruct (pcs s !! w) as [[]|] eqn:Hpc; try by left.
    destruct (handle_response value resp (default [] (errLogs s !! w)))
      as [errLog [eventValue|]] eqn:Hh.
    + assert (eventValue = value) as ->.
      { unfold handle_response in Hh.
        destruct (echoed resp) as [|got [|]]; try by injection Hh.
        destruct (negb (got =? value)); [done | by injection Hh]. }
      right; right; right; left. split; [done |]. by eexists _, _, _, _, _, _.
    + right; right; right; right. split; [done |]. by eexists _, _, _, _, _, _.
Qed.


(** *** Reading a history that has grown *)

Lemma omap_rev_cons {A B : Type} (f : A -> option B) (e : A) (h : list A) :
  omap f (rev (e :: h)) = omap f (rev h) ++ option_list (f e).
Proof.
  cbn [rev]. rewrite omap_app. f_equal.
Qed.

Lemma held_cons (p : pc) ps : held (p :: ps) = option_list (holding p) ++ held ps.
Proof. unfold held. simpl. by destruct (holding p). Qed.

(** Changing the program point of one worker exchanges what it holds. *)
Lemma held_insert ps w (p p' : pc) :
  ps !! w = Some p ->
  option_list (holding p) ++ held (<[w := p']> ps) ≡ₚ
  option_list (holding p') ++ held ps.
Proof.
  revert w. induction ps as [|q ps IH]; intros [|w] Hw; try done.
  - injection Hw as ->. cbn [insert list_insert]. rewrite !held_cons.
    apply Permutation_app_swap_app.
  - cbn [insert list_insert]. rewrite !held_cons.
    rewrite (Permutation_app_swap_app (option_list (holding p))).
    rewrite (Permutation_app_swap_app (option_list (holding p'))).
    apply Permutation_app_head, IH, Hw.
Qed.

Lemma held_insert_same ps w (p p' : pc) :
  ps !! w = Some p -> holding p' = holding p ->
  held (<[w := p']> ps) ≡ₚ held ps.
Proof.
  intros Hw Heq. pose proof (held_insert ps w p p' Hw) as H.
  rewrite Heq in H. by apply Permutation_app_inv_l in H.
Qed.

Lemma count_leaving_insert (ceiling : Z) ps w (p p' : pc) :
  ps !! w = Some p ->
  count_leaving ceiling (<[w := p']> ps) =
    count_leaving ceiling ps - (if leaving ceiling p then 1 else 0)
      + (if leaving ceiling p' then 1 else 0).
Proof.
  revert w. induction ps as [|q ps IH]; intros [|w] Hw; try done.
  - injection Hw as ->. cbn [insert list_insert count_leaving]. lia.
  - change (<[S w := p']> (q :: ps)) with (q :: <[w := p']> ps).
    cbn [count_leaving]. rewrite (IH w Hw). lia.
Qed.

Lemma count_leaving_bounds (ceiling : Z) ps :
  0 <= count_leaving ceiling ps <= Z.of_nat (length ps).
Proof.
  induction ps as [|q ps IH]; cbn [count_leaving length]; [lia |].
  destruct (leaving ceiling q); lia.
Qed.

(** With a worker still at its ticker, not every worker is leaving. *)
Lemma count_leaving_room (ceiling : Z) ps w :
  ps !! w = Some AtTicker ->
  count_leaving ceiling ps < Z.of_nat (length ps).
Proof.
  intros Hw.
  pose proof (count_leaving_insert ceiling ps w AtTicker Stopped Hw) as Hins.
  pose proof (count_leaving_bounds ceiling (<[w := Stopped]> ps)) as Hb.
  rewrite length_insert in Hb. cbn [leaving] in Hins. lia.
Qed.

Lemma count_leaving_all_stopped (ceiling : Z) ps :
  Forall (fun p => p = Stopped) ps ->
  count_leaving ceiling ps = Z.of_nat (length ps).
Proof.
  induction 1 as [|p ps -> _ IH]; cbn [count_leaving length leaving]; lia.
Qed.

(** *** Invariants of a run *)

Lemma run_snoc cfg (acts : list action) a :
  run cfg (acts ++ [a]) = step cfg (run cfg acts) a.
Proof. unfold run. by rewrite foldl_app. Qed.

Lemma run_invariant cfg (P : system -> Prop) :
  P (init cfg) ->
  (forall s a, P s -> P (step cfg s a)) ->
  forall acts, P (run cfg acts).
Proof.
  intros Hinit Hstep acts. induction acts as [|a acts IH] using rev_ind.
  - exact Hinit.
  - rewrite run_snoc. by apply Hstep.
Qed.

Ltac step_inversion cfg s a :=
  let Hp := fresh "Hp" in let Hpc := fresh "Hpc" in let Hh := fresh "Hh" in
  destruct (step_cases cfg s a)
    as [-> | [(Hp & w & -> & Hpc & ->)
       | [(Hp & w & person & client & now & value & personID & -> & Hpc
             & Hperson & Hclient & ->)
       | [(Hp & w & resp & value & personID & client & errLog & -> & Hpc & Hh & ->)
       | (Hp & w & resp & value & personID & client & errLog & -> & Hpc & Hh & ->)]]]].

Ltac read_state :=
  unfold reserved, submitted in *;
  cbn [count insertTime pcs errLogs panicked history];
  rewrite ?omap_rev_cons; cbn [reserved_value submitted_value option_list option_rect];
  rewrite ?app_nil_r.

Lemma counted_init cfg : 0 <= max_events cfg -> counted cfg (init cfg).
Proof.
  intros HK. unfold counted, init, reserved.
  cbn [count pcs errLogs panicked history rev omap list_omap].
  rewrite !length_replicate. repeat split; try done; try lia.
  induction (workers cfg) as [|n IH]; cbn [replicate count_leaving leaving]; lia.
Qed.

Lemma counted_step cfg s a :
  0 <= max_events cfg ->
  max_events cfg + Z.of_nat (workers cfg) < 2 ^ 64 ->
  counted cfg s -> counted cfg (step cfg s a).
Proof.
  intros HK Hbound (Hres & Hcount & Hlogs & Hrun).
  step_inversion cfg s a; [done | | | |]; destruct (Hrun Hp) as [Hlen Hleave];
    unfold counted; read_state; rewrite ?length_insert.
  - (* reserve *)
    pose proof (count_leaving_room (max_events cfg) _ _ Hpc) as Hroom.
    assert (uint64_wrap (count s + 1) = count s + 1) as ->
      by (apply uint64_wrap_small; lia).
    rewrite Hres.
    split; [| split; [lia | split; [done |]]].
    + rewrite (seqZ_app 0 (count s) 1) by lia. done.
    + intros _. split; [done |].
      rewrite (count_leaving_insert _ _ _ _ _ Hpc). cbn [leaving].
      destruct (Z.leb_spec (max_events cfg) (count s)); lia.
  - (* stamp *)
    repeat split; try done; try lia.
    rewrite (count_leaving_insert _ _ _ _ _ Hpc). cbn [leaving].
    destruct (max_events cfg <=? value); lia.
  - (* write, answered *)
    repeat split; try done; try lia.
    rewrite (count_leaving_insert _ _ _ _ _ Hpc). cbn [leaving].
    destruct (max_events cfg <=? value); cbn [leaving]; lia.
  - (* write, panic *)
    repeat split; try done; lia.
Qed.

Lemma counted_run cfg (acts : list action) :
  0 <= max_events cfg ->
  max_events cfg + Z.of_nat (workers cfg) < 2 ^ 64 ->
  counted cfg (run cfg acts).
Proof.
  intros HK Hbound. apply run_invariant.
  - by apply counted_init.
  - intros s a. by apply counted_step.
Qed.

Lemma sent_or_held_init cfg : sent_or_held (init cfg).
Proof.
  unfold sent_or_held, init, submitted, reserved, held.
  cbn [pcs history rev omap list_omap app].
  induction (workers cfg) as [|n IH]; [done | exact IH].
Qed.

Lemma sent_or_held_step cfg s a : sent_or_held s -> sent_or_held (step cfg s a).
Proof.
  unfold sent_or_held. intros Hperm.
  step_inversion cfg s a; [done | | | |]; read_state.
  - pose proof (held_insert _ _ _ (Reserved (count s)) Hpc) as Hheld.
    cbn [holding option_list option_rect app] in Hheld.
    rewrite Hheld, <- Hperm, <- Permutation_middle.
    apply Permutation_cons_append.
  - by rewrite (held_insert_same _ _ _ _ Hpc).
  - pose proof (held_insert _ _ _
      (if max_events cfg <=? value then Stopped else AtTicker) Hpc) as Hheld.
    assert (holding (if max_events cfg <=? value then Stopped else AtTicker) = None)
      as Hnone by (by destruct (max_events cfg <=? value)).
    rewrite Hnone in Hheld. cbn [holding option_list option_rect app] in Hheld.
    by rewrite <- app_assoc, Hheld.
  - pose proof (held_insert _ _ _ Aborted Hpc) as Hheld.
    cbn [holding option_list option_rect app] in Hheld.
    by rewrite <- app_assoc, Hheld.
Qed.

Lemma lookup_insert_pc ps w w' (p p' q : pc) :
  ps !! w = Some p -> <[w := p']> ps !! w' = Some q ->
  (w' = w /\ q = p') \/ (w' <> w /\ ps !! w' = Some q).
Proof.
  intros Hw Hq. destruct (decide (w' = w)) as [->|Hne].
  - left. split; [done |].
    rewrite list_lookup_insert_eq in Hq by (by eapply lookup_lt_Some).
    by injection Hq.
  - right. split; [done |]. by rewrite list_lookup_insert_ne in Hq.
Qed.

Lemma stamped_first_init cfg : stamped_first (init cfg).
Proof.
  unfold stamped_first, init, submitted. cbn [pcs history insertTime rev omap list_omap].
  split; [| split].
  - intros later ? ? ? ? ? Hnil. by destruct later.
  - intros w value personID client Hw.
    apply lookup_replicate in Hw as [? _]. done.
  - intros value Hin. by apply elem_of_nil in Hin.
Qed.

Lemma stamped_first_step cfg s a : stamped_first s -> stamped_first (step cfg s a).
Proof.
  intros (Hhist & Hpcs & Hsent).
  step_inversion cfg s a; [done | | | |]; unfold stamped_first; read_state.
  - split; [| split; [| done]].
    + intros [|e later] earlier w' c v p Heq; [done |].
      injection Heq as _ Heq. eauto.
    + intros w' v p c Hw'.
      destruct (lookup_insert_pc _ _ _ _ _ _ Hpc Hw') as [[_ ?]|[_ Hold]]; [done |].
      destruct (Hpcs _ _ _ _ Hold) as [[t Ht] ?].
      split; [exists t; by apply list_elem_of_further | done].
  - unfold stamp. split; [| split].
    + intros [|e later] earlier w' c v p Heq; [done |].
      injection Heq as _ Heq. eauto.
    + intros w' v p c Hw'.
      destruct (lookup_insert_pc _ _ _ _ _ _ Hpc Hw') as [[-> [= -> -> ->]]|[_ Hold]].
      * split; [exists now; apply list_elem_of_here |].
        rewrite lookup_insert_eq. by eexists.
      * destruct (Hpcs _ _ _ _ Hold) as [[t Ht] ?].
        split; [exists t; by apply list_elem_of_further |].
        by apply lookup_insert_is_Some'; right.
    + intros v Hv. apply lookup_insert_is_Some'; right. by apply Hsent.
  - destruct (Hpcs _ _ _ _ Hpc) as [Hstamp Hledger].
    split; [| split].
    + intros [|e later] earlier w' c v p Heq.
      * by injection Heq as -> -> -> -> <-.
      * injection Heq as _ Heq. eauto.
    + intros w' v p c Hw'.
      destruct (lookup_insert_pc _ _ _ _ _ _ Hpc Hw') as [[_ Hq]|[_ Hold]].
      * by destruct (max_events cfg <=? value).
      * destruct (Hpcs _ _ _ _ Hold) as [[t Ht] ?].
        split; [exists t; by apply list_elem_of_further | done].
    + intros v Hv. apply elem_of_app in Hv as [Hv|Hv]; [by apply Hsent |].
      by apply list_elem_of_singleton in Hv as ->.
  - destruct (Hpcs _ _ _ _ Hpc) as [Hstamp Hledger].
    split; [| split].
    + intros [|e [|e' later]] earlier w' c v p Heq; [done | |].
      * by injection Heq as _ -> -> -> -> <-.
      * injection Heq as _ _ Heq. eauto.
    + intros w' v p c Hw'.
      destruct (lookup_insert_pc _ _ _ _ _ _ Hpc Hw') as [[_ Hq]|[_ Hold]]; [done |].
      destruct (Hpcs _ _ _ _ Hold) as [[t Ht] ?].
      split; [exists t; by do 2 apply list_elem_of_further | done].
    + intros v Hv. apply elem_of_app in Hv as [Hv|Hv]; [by apply Hsent |].
      by apply list_elem_of_singleton in Hv as ->.
Qed.

Lemma sent_or_held_run cfg (acts : list action) : sent_or_held (run cfg acts).
Proof.
  apply run_invariant; [apply sent_or_held_init |].
  intros s a. apply sent_or_held_step.
Qed.

Lemma stamped_first_run cfg (acts : list action) : stamped_first (run cfg acts).
Proof.
  apply run_invariant; [apply stamped_first_init |].
  intros s a. apply stamped_first_step.
Qed.

(** *** The moves of a running process, one by one *)

Lemma step_tick cfg s w :
  panicked s = false -> pcs s !! w = Some AtTicker ->
  step cfg s (Tick w) =
    mkSystem (uint64_wrap (count s + 1)) (insertTime s)
             (<[w := Reserved (count s)]> (pcs s)) (errLogs s) false
             (EvReserve w (count s) :: history s).
Proof. intros Hp Hpc. unfold step. by rewrite Hp, Hpc. Qed.

Lemma step_stamp cfg s w (person client : nat) (now value : Z) (personID : string) :
  panicked s = false -> pcs s !! w = Some (Reserved value) ->
  people !! person = Some personID -> (client < length servers)%nat ->
  step cfg s (Stamp w person client now) =
    mkSystem (count s) (stamp value now (insertTime s))
             (<[w := Stamped value personID client]> (pcs s)) (errLogs s) false
             (EvStamp w value now :: history s).
Proof.
  intros Hp Hpc Hperson Hclient. unfold step. rewrite Hp, Hpc, Hperson.
  by destruct (Nat.ltb_spec client (length servers)); [| lia].
Qed.

Lemma step_send cfg s w (resp : response) (value : Z) (personID : string)
    (client : nat) :
  panicked s = false -> pcs s !! w = Some (Stamped value personID client) ->
  step cfg s (Send w resp) =
    let '(errLog, ret) := handle_response value resp (default [] (errLogs s !! w)) in
    match ret with
    | Panic =>
        mkSystem (count s) (insertTime s) (<[w := Aborted]> (pcs s))
                 (<[w := errLog]> (errLogs s)) true
                 (EvPanic w :: EvMutate w client value personID :: history s)
    | Return eventValue =>
        mkSystem (count s) (insertTime s)
                 (<[w := if max_events cfg <=? eventValue
                         then Stopped else AtTicker]> (pcs s))
                 (<[w := errLog]> (errLogs s)) false
                 (EvMutate w client value personID :: history s)
    end.
Proof. intros Hp Hpc. unfold step. by rewrite Hp, Hpc. Qed.

(** *** What the answer to a write leads to *)

Lemma handle_response_spec (value : Z) (resp : response) (errLog : list log_line) :
  handle_response value resp errLog =
    (errLog ++ lines_logged value resp,
     match echoed resp with
     | [got] => if got =? value then Return value else Panic
     | _ => Return value
     end).
Proof.
  unfold handle_response, lines_logged.
  destruct (rpc_error resp), (decode_error resp), (echoed resp) as [|got [|]];
    cbn [app]; rewrite <- ?app_assoc, ?app_nil_r; cbn [app]; try done;
    destruct (got =? value); cbn [negb]; by rewrite ?app_nil_r.
Qed.

Lemma lines_logged_on_failure (value : Z) (resp : response) :
  rpc_error resp = true \/ decode_error resp = true \/ length (echoed resp) <> 1%nat ->
  lines_logged value resp <> [].
Proof.
  unfold lines_logged. intros [-> | [-> | Hlen]]; try done.
  - by destruct (rpc_error resp).
  - destruct (echoed resp) as [|got [|]]; try done;
      by destruct (rpc_error resp), (decode_error resp).
Qed.

(** *** A worker running alone *)


(** Three moves of one worker in a row are one call of [addEvent]. *)
Lemma addEvent_as_moves cfg s w (person client : nat) (now : time)
    (resp : response) (personID : string) (errLog : list log_line) :
  panicked s = false -> pcs s !! w = Some AtTicker ->
  people !! person = Some personID -> (client < length servers)%nat ->
  errLogs s !! w = Some errLog ->
  let s' := foldl (step cfg) s [Tick w; Stamp w person client now; Send w resp] in
  let '(count', insertTime', errLog', ret) :=
    addEvent now resp (count s) (insertTime s) errLog in
  count s' = count' /\ insertTime s' = insertTime' /\
  errLogs s' !! w = Some errLog' /\
  panicked s' = match ret with Panic => true | Return _ => false end /\
  history s' =
    (match ret with Panic => [EvPanic w] | Return _ => [] end) ++
    EvMutate w client (count s) personID :: EvStamp w (count s) now
      :: EvReserve w (count s) :: history s.
Proof.
  intros Hp Hpc Hperson Hclient Hlog.
  assert (w < length (pcs s))%nat as Hw by (by eapply lookup_lt_Some).
  assert (w < length (errLogs s))%nat as Hw' by (by eapply lookup_lt_Some).
  cbn [foldl]. rewrite (step_tick cfg s w Hp Hpc).
  erewrite step_stamp;
    [| done | cbn [pcs]; by apply list_lookup_insert_eq | done | done].
  erewrite step_send;
    [| done | cbn [pcs]; apply list_lookup_insert_eq; by rewrite length_insert].
  unfold addEvent, reserve. cbn [errLogs]. rewrite Hlog.
  change (default [] (Some errLog)) with errLog.
  destruct (handle_response (count s) resp errLog) as [errLog' [value|]];
    cbn [count insertTime errLogs panicked history app];
    repeat split; by apply list_lookup_insert_eq.
Qed.





(** ** Claims about the allocator and the writers *)


(** C1. In every run of the process, with any number of workers calling
    [addEvent] in any interleaving, the values handed out by the locked
    read-and-increment of [count] are strictly increasing in the order in
    which they are issued, so that no value is handed out twice. (The counter
    is a [uint64]; it never wraps because every worker stops after the first
    value it gets at or above the ceiling.) *)
Theorem reserve_never_repeats cfg (acts : list action) :
  0 <= max_events cfg ->
  max_events cfg + Z.of_nat (workers cfg) < 2 ^ 64 ->
  let issued := reserved (run cfg acts) in
  (forall (i j : nat) (vi vj : Z),
     issued !! i = Some vi -> issued !! j = Some vj -> (i < j)%nat -> vi < vj) /\
  NoDup issued.
Proof.
  intros HK Hbound issued.
  destruct (counted_run cfg acts HK Hbound) as (Hres & _).
  unfold issued. rewrite Hres. split.
  - intros i j vi vj Hi Hj Hlt.
    apply lookup_seqZ in Hi as [-> _]. apply lookup_seqZ in Hj as [-> _]. lia.
  - apply NoDup_seqZ.
Qed.

Lemma reserve_never_repeats_witness :
  0 <= max_events main_config /\
  max_events main_config + Z.of_nat (workers main_config) < 2 ^ 64 /\
  NoDup (reserved (run main_config [Tick 0; Tick 1; Tick 0; Tick 2; Tick 1])).
Proof.
  assert (0 <= max_events main_config) as HK by (vm_compute; discriminate).
  assert (max_events main_config + Z.of_nat (workers main_config) < 2 ^ 64)
    as Hbound by (vm_compute; reflexivity).
  split; [exact HK |]. split; [exact Hbound |].
  exact (proj2 (reserve_never_repeats main_config
                  [Tick 0; Tick 1; Tick 0; Tick 2; Tick 1] HK Hbound)).
Defined.




(** C7 (as stated, refuted). A write that comes back with an RPC error and
    a response holding one record of another value is logged, and then the
    worker does not go on to its next tick: the process panics. The same
    happens for a response that the decoder rejects while leaving one record
    of another value behind. *)
Lemma failed_write_can_abort :
  (let s := run main_config
              [Tick 0; Stamp 0 0 0 0; Send 0 (mkResponse true false [1])] in
   panicked s = true /\ pcs s !! 0%nat = Some Aborted /\
   errLogs s !! 0%nat = Some [ErrorAddingEvent; ValueMismatch 0 1]) /\
  (let s := run main_config
              (quiet_round 0 0 ++
               [Tick 0; Stamp 0 0 0 0; Send 0 (mkResponse false true [0])]) in
   panicked s = true /\ pcs s !! 0%nat = Some Aborted /\
   errLogs s !! 0%nat = Some [ErrorUnmarshaling; ValueMismatch 1 0]).
Proof. split; vm_compute; repeat split; reflexivity. Qed.

(** C7 (amended). No reserved value is sent twice: at every moment of a run
    the values sent are pairwise distinct and, together with the values that
    workers hold on their way to the write, they are the values reserved.
    When the write for a value comes back, the value has been sent, the lines
    for the failure are appended to the log of the worker (at least one line
    on an RPC error, on a response that does not decode, or on a response
    that does not hold exactly one record), and the worker neither sends the
    value again nor keeps it: it goes back to its ticker, or stops when the
    value had reached the ceiling. The one exception is a response that holds
    exactly one record with another value: then the process panics, also
    after an RPC or decoding error. *)
Theorem reserved_value_sent_once cfg (acts : list action) :
  0 <= max_events cfg ->
  max_events cfg + Z.of_nat (workers cfg) < 2 ^ 64 ->
  let s := run cfg acts in
  NoDup (submitted s) /\
  submitted s ++ held (pcs s) ≡ₚ reserved s /\
  (forall w (v : Z) (personID : string) (client : nat) (resp : response),
     panicked s = false -> pcs s !! w = Some (Stamped v personID client) ->
     let s' := step cfg s (Send w resp) in
     submitted s' = submitted s ++ [v] /\
     (exists errLog lines : list log_line,
        errLogs s !! w = Some errLog /\
        errLogs s' !! w = Some (errLog ++ lines) /\
        (rpc_error resp = true \/ decode_error resp = true \/
         length (echoed resp) <> 1%nat -> lines <> [])) /\
     (panicked s' = true <-> exists got : Z, echoed resp = [got] /\ got <> v) /\
     (panicked s' = false ->
      pcs s' !! w = Some (if max_events cfg <=? v then Stopped else AtTicker))).
Proof.
  intros HK Hbound s.
  destruct (counted_run cfg acts HK Hbound) as (Hres & _ & Hlogs & _).
  pose proof (sent_or_held_run cfg acts) as Hperm.
  fold s in Hres, Hlogs, Hperm. unfold sent_or_held in Hperm.
  split; [| split; [exact Hperm |]].
  - assert (NoDup (submitted s ++ held (pcs s))) as Hnd.
    { rewrite Hperm, Hres. apply NoDup_seqZ. }
    by apply NoDup_app in Hnd as [? _].
  - intros w v personID client resp Hp Hpc s'.
    assert (w < length (pcs s))%nat as Hw by (by eapply lookup_lt_Some).
    destruct (lookup_lt_is_Some_2 (errLogs s) w) as [errLog HerrLog]; [lia |].
    unfold s'. rewrite (step_send cfg s w resp v personID client Hp Hpc).
    rewrite handle_response_spec, HerrLog. cbn [default].
    pose proof (lines_logged_on_failure v resp) as Hlines.
    assert (forall x : list log_line,
              <[w := x]> (errLogs s) !! w = Some x) as Hlog
      by (intros x; apply list_lookup_insert_eq; lia).
    destruct (echoed resp) as [|got [|]] eqn:Hecho.
    + read_state. split; [done |]. split; [by eexists _, _ |].
      split; [| intros _; by apply list_lookup_insert_eq].
      split; [done | by intros (g & ? & _)].
    + destruct (Z.eqb_spec got v) as [->|Hne]; read_state.
      * split; [done |]. split; [by eexists _, _ |].
        split; [| intros _; by apply list_lookup_insert_eq].
        split; [done | by intros (g & [= <-] & ?)].
      * split; [done |]. split; [by eexists _, _ |].
        split; [| done]. split; [by exists got | done].
    + read_state. split; [done |]. split; [by eexists _, _ |].
      split; [| intros _; by apply list_lookup_insert_eq].
      split; [done | by intros (g & ? & _)].
Qed.

Lemma reserved_value_sent_once_witness :
  0 <= max_events main_config /\
  max_events main_config + Z.of_nat (workers main_config) < 2 ^ 64 /\
  NoDup (submitted (run main_config
           (quiet_round 0 0 ++ [Tick 1; Stamp 1 2 1 9;
                                 Send 1 (mkResponse true true [])]))).
Proof.
  assert (0 <= max_events main_config) as HK by (vm_compute; discriminate).
  assert (max_events main_config + Z.of_nat (workers main_config) < 2 ^ 64)
    as Hbound by (vm_compute; reflexivity).
  split; [exact HK |]. split; [exact Hbound |].
  exact (proj1 (reserved_value_sent_once main_config
                  (quiet_round 0 0 ++ [Tick 1; Stamp 1 2 1 9;
                                        Send 1 (mkResponse true true [])])
                  HK Hbound)).
Defined.

Lemma held_lookup ps (w0 : nat) (p : pc) (v : Z) :
  ps !! w0 = Some p -> holding p = Some v -> v ∈ held ps.
Proof.
  intros Hw Hv. unfold held. apply list_elem_of_omap. exists p.
  split; [by eapply list_elem_of_lookup_2 | done].
Qed.

Lemma held_NoDup_inj ps (w1 w2 : nat) (p1 p2 : pc) (v : Z) :
  NoDup (held ps) -> ps !! w1 = Some p1 -> ps !! w2 = Some p2 ->
  holding p1 = Some v -> holding p2 = Some v -> w1 = w2.
Proof.
  revert w1 w2. induction ps as [|q ps IH]; intros w1 w2 Hnd H1 H2 Hv1 Hv2;
    [done |].
  rewrite held_cons in Hnd.
  destruct w1 as [|w1], w2 as [|w2]; [done | | |].
  - exfalso. injection H1 as ->. rewrite Hv1 in Hnd. cbn in Hnd.
    apply NoDup_cons in Hnd as [Hnin _]. apply Hnin.
    by apply (held_lookup ps w2 p2).
  - exfalso. injection H2 as ->. rewrite Hv2 in Hnd. cbn in Hnd.
    apply NoDup_cons in Hnd as [Hnin _]. apply Hnin.
    by apply (held_lookup ps w1 p1).
  - f_equal. apply NoDup_app in Hnd as (_ & _ & Hnd). by apply (IH w1 w2).
Qed.

(** *** The ledger holds the time of the stamp *)

Lemma ledger_times_init cfg : ledger_times (init cfg).
Proof. intros w value now Hin. by apply elem_of_nil in Hin. Qed.

Lemma ledger_times_step cfg s a :
  max_events cfg + Z.of_nat (workers cfg) < 2 ^ 64 ->
  counted cfg s -> sent_or_held s -> ledger_times s -> ledger_times (step cfg s a).
Proof.
  intros Hbound (Hres & Hcount & _) Hperm Htimes.
  unfold sent_or_held in Hperm.
  assert (NoDup (submitted s ++ held (pcs s))) as Hnd
    by (rewrite Hperm, Hres; apply NoDup_seqZ).
  assert (forall v, v ∈ submitted s ++ held (pcs s) -> 0 <= v < 2 ^ 64) as Hrange.
  { intros v Hv. rewrite Hperm, Hres in Hv. apply elem_of_seqZ in Hv. lia. }
  step_inversion cfg s a; [done | | | |]; intros w0 v0 t0 Hin;
    cbn [history insertTime pcs] in Hin |- *.
  - apply elem_of_cons in Hin as [? | Hin]; [done |].
    destruct (Htimes _ _ _ Hin) as [Hentry Hwhere]. split; [exact Hentry |].
    destruct Hwhere as [Hsub | (p & c & Hw0)].
    + left. unfold submitted in *. cbn [history].
      by rewrite omap_rev_cons, app_nil_r.
    + right. exists p, c. rewrite list_lookup_insert_ne; [done |].
      intros <-. congruence.
  - assert (value ∈ held (pcs s)) as Hheld by (by apply (held_lookup _ w _ _ Hpc)).
    apply elem_of_cons in Hin as [[= -> -> ->] | Hin].
    + unfold stamp. rewrite lookup_insert_eq. split; [done |].
      right. exists personID, client. apply list_lookup_insert_eq.
      by eapply lookup_lt_Some.
    + destruct (Htimes _ _ _ Hin) as [Hentry Hwhere].
      assert (v0 ∈ submitted s ++ held (pcs s) /\ v0 <> value) as [Hv0 Hne].
      { destruct Hwhere as [Hsub | (p & c & Hw0)].
        - split; [apply elem_of_app; by left |]. intros ->.
          apply NoDup_app in Hnd as (_ & Hdisj & _). by apply (Hdisj value).
        - split; [apply elem_of_app; right; by apply (held_lookup _ w0 _ _ Hw0) |].
          intros ->. apply NoDup_app in Hnd as (_ & _ & Hnd).
          assert (w0 = w) as ->
            by (by apply (held_NoDup_inj _ _ _ _ _ value Hnd Hw0 Hpc)).
          congruence. }
      split.
      * unfold stamp. rewrite lookup_insert_ne; [done |]. intros Hkey.
        apply Hne. symmetry. apply int_of_uint64_inj; [| | done]; apply Hrange;
          [apply elem_of_app; by right | done].
      * destruct Hwhere as [Hsub | (p & c & Hw0)].
        -- left. unfold submitted in *. cbn [history].
           by rewrite omap_rev_cons, app_nil_r.
        -- right. exists p, c. rewrite list_lookup_insert_ne; [done |].
           intros <-. congruence.
  - apply elem_of_cons in Hin as [? | Hin]; [done |].
    destruct (Htimes _ _ _ Hin) as [Hentry Hwhere]. split; [exact Hentry |].
    destruct Hwhere as [Hsub | (p & c & Hw0)].
    + left. unfold submitted in *. cbn [history]. rewrite omap_rev_cons.
      apply elem_of_app. by left.
    + destruct (decide (w0 = w)) as [-> | Hne].
      * left. rewrite Hpc in Hw0. injection Hw0 as <- _ _.
        unfold submitted. cbn [history]. rewrite omap_rev_cons.
        apply elem_of_app. right. apply list_elem_of_here.
      * right. exists p, c. by rewrite list_lookup_insert_ne.
  - apply elem_of_cons in Hin as [? | Hin]; [done |].
    apply elem_of_cons in Hin as [? | Hin]; [done |].
    destruct (Htimes _ _ _ Hin) as [Hentry Hwhere]. split; [exact Hentry |].
    destruct Hwhere as [Hsub | (p & c & Hw0)].
    + left. unfold submitted in *. cbn [history]. rewrite !omap_rev_cons.
      apply elem_of_app. left. apply elem_of_app. by left.
    + destruct (decide (w0 = w)) as [-> | Hne].
      * left. rewrite Hpc in Hw0. injection Hw0 as <- _ _.
        unfold submitted. cbn [history]. rewrite !omap_rev_cons.
        apply elem_of_app. left. apply elem_of_app. right. apply list_elem_of_here.
      * right. exists p, c. by rewrite list_lookup_insert_ne.
Qed.

Lemma ledger_times_run cfg (acts : list action) :
  0 <= max_events cfg ->
  max_events cfg + Z.of_nat (workers cfg) < 2 ^ 64 ->
  ledger_times (run cfg acts).
Proof.
  intros HK Hbound. induction acts as [|a acts IH] using rev_ind.
  - apply ledger_times_init.
  - rewrite run_snoc. apply ledger_times_step; [done | | | done].
    + by apply counted_run.
    + apply sent_or_held_run.
Qed.

(** C8. In every run, each write issued to a node comes after the entry of
    its value in the ledger of submission times: the same worker had made the
    entry before, with the time it read then, and the ledger holds that time
    for the value when the write is issued and ever after. Making the entry
    is what takes a worker from the reservation to the write; a worker about
    to issue a write finds its entry there, and whatever comes back from the
    write leaves the ledger as it is, so that every value for which a write
    was attempted has its entry. (The counter does not wrap, see C1, so that
    no two values share a key.) *)
Theorem ledger_entry_precedes_write cfg (acts : list action) :
  0 <= max_events cfg ->
  max_events cfg + Z.of_nat (workers cfg) < 2 ^ 64 ->
  let s := run cfg acts in
  (forall (later earlier : list event) (w client : nat) (value : Z)
          (personID : string),
     history s = later ++ EvMutate w client value personID :: earlier ->
     exists now : time,
       EvStamp w value now ∈ earlier /\
       insertTime s !! int_of_uint64 value = Some now) /\
  (forall (w person client : nat) (now : time) (value : Z) (personID : string),
     panicked s = false -> pcs s !! w = Some (Reserved value) ->
     people !! person = Some personID -> (client < length servers)%nat ->
     let s' := step cfg s (Stamp w person client now) in
     insertTime s' !! int_of_uint64 value = Some now /\
     pcs s' !! w = Some (Stamped value personID client) /\
     submitted s' = submitted s) /\
  (forall (w : nat) (value : Z) (personID : string) (client : nat),
     pcs s !! w = Some (Stamped value personID client) ->
     (exists now : time,
        EvStamp w value now ∈ history s /\
        insertTime s !! int_of_uint64 value = Some now) /\
     forall resp : response,
       insertTime (step cfg s (Send w resp)) = insertTime s) /\
  (forall value : Z,
     value ∈ submitted s ->
     exists (w : nat) (now : time),
       EvStamp w value now ∈ history s /\
       insertTime s !! int_of_uint64 value = Some now).
Proof.
  intros HK Hbound s.
  destruct (stamped_first_run cfg acts) as (Hhist & Hpcs & _).
  pose proof (ledger_times_run cfg acts HK Hbound) as Htimes.
  fold s in Hhist, Hpcs, Htimes.
  assert (forall (later earlier : list event) (w client : nat) (value : Z)
                 (personID : string),
            history s = later ++ EvMutate w client value personID :: earlier ->
            exists now : time,
              EvStamp w value now ∈ earlier /\
              insertTime s !! int_of_uint64 value = Some now) as Hwrites.
  { intros later earlier w client value personID Heq.
    destruct (Hhist _ _ _ _ _ _ Heq) as [now Hnow]. exists now.
    split; [exact Hnow |]. apply (Htimes w). rewrite Heq.
    apply elem_of_app. right. by apply list_elem_of_further. }
  split; [exact Hwrites |]. split; [| split].
  - intros w person client now value personID Hp Hpc Hperson Hclient s'.
    unfold s'. rewrite (step_stamp cfg s w person client now value personID)
      by done.
    cbn [insertTime pcs]. unfold stamp. rewrite lookup_insert_eq.
    split; [done |]. split.
    + apply list_lookup_insert_eq. by eapply lookup_lt_Some.
    + unfold submitted. cbn [history]. by rewrite omap_rev_cons, app_nil_r.
  - intros w value personID client Hpc. split.
    + destruct (Hpcs _ _ _ _ Hpc) as [[now Hnow] _]. exists now.
      split; [exact Hnow |]. by apply (Htimes w).
    + intros resp. destruct (panicked s) eqn:Hp.
      * unfold step. by rewrite Hp.
      * rewrite (step_send cfg s w resp value personID client Hp Hpc).
        by destruct (handle_response _ _ _) as [? []].
  - intros value Hv. unfold submitted in Hv.
    apply list_elem_of_omap in Hv as (e & He & Hval).
    destruct e as [| | w client v personID |]; try discriminate.
    injection Hval as ->.
    apply list_elem_of_In, in_rev, list_elem_of_In in He.
    apply list_elem_of_split in He as (later & earlier & Heq).
    destruct (Hwrites _ _ _ _ _ _ Heq) as (now & Hnow & Hentry).
    exists w, now. split; [| exact Hentry]. rewrite Heq.
    apply elem_of_app. right. by apply list_elem_of_further.
Qed.

Lemma ledger_entry_precedes_write_witness :
  0 <= max_events main_config /\
  max_events main_config + Z.of_nat (workers main_config) < 2 ^ 64 /\
  history (run main_config
             [Tick 3; Stamp 3 1 2 42; Send 3 (mkResponse true true [])])
  = [] ++ EvMutate 3 2 0 "Bob" :: [EvStamp 3 0 42; EvReserve 3 0] /\
  insertTime
    (run main_config [Tick 3; Stamp 3 1 2 42; Send 3 (mkResponse true true [])])
    !! int_of_uint64 0 = Some 42.
Proof.
  assert (0 <= max_events main_config) as HK by (vm_compute; discriminate).
  assert (max_events main_config + Z.of_nat (workers main_config) < 2 ^ 64)
    as Hbound by (vm_compute; reflexivity).
  assert (history (run main_config
                     [Tick 3; Stamp 3 1 2 42; Send 3 (mkResponse true true [])])
          = [] ++ EvMutate 3 2 0 "Bob" :: [EvStamp 3 0 42; EvReserve 3 0]) as Hhist
    by (vm_compute; reflexivity).
  split; [exact HK |]. split; [exact Hbound |]. split; [exact Hhist |].
  destruct (proj1 (ledger_entry_precedes_write main_config
                     [Tick 3; Stamp 3 1 2 42; Send 3 (mkResponse true true [])]
                     HK Hbound) _ _ _ _ _ _ Hhist) as (now & Hin & Hentry).
  apply elem_of_cons in Hin as [Heq | Hin].
  - injection Heq as ->. exact Hentry.
  - apply elem_of_cons in Hin as [Heq | Hin]; [discriminate |].
    by apply elem_of_nil in Hin.
Defined.



(** ** The validation scheduler *)

Section SchedulerFacts.
Import Validation Scheduler.

Variable cfg : config.
Hypothesis interval_positive : 0 < validation_interval cfg.
Hypothesis no_wrap : max_events cfg + validation_interval cfg <= 2 ^ 64.

Lemma validate_from_reports final (i : nat) (clients : list node)
    (tbl : gmap string Z) (printed : list report) :
  exited (validate_from final i clients tbl printed) = None ->
  length (reports (validate_from final i clients tbl printed)) =
    (length printed + length clients)%nat.
Proof.
  revert i tbl printed.
  induction clients as [|client clients IH]; intros i tbl printed; cbn [validate_from].
  - intros _. cbn. lia.
  - destruct (validate_node final i client tbl) as [[tbl' r]|c]; [| done].
    intros Hex. rewrite (IH _ _ _ Hex), length_app. cbn. lia.
Qed.

Lemma in_step_start : in_step cfg (start cfg).
Proof.
  unfold in_step, start, thresholds. cbn. repeat split; [lia | constructor].
Qed.

Lemma in_step_same (s s' : scheduler) :
  passes s' = passes s -> nextValidationAt s' = nextValidationAt s ->
  in_step cfg s -> in_step cfg s'.
Proof. unfold in_step, thresholds. by intros -> ->. Qed.

Lemma in_step_pass (s : scheduler) (p : poll) (tbl : gmap string Z) :
  observed p < max_events cfg -> nextValidationAt s <= observed p ->
  exited (validate (answers p) false (missingCount s)) = None ->
  in_step cfg s ->
  in_step cfg
    (mkScheduler (uint64_wrap (nextValidationAt s + validation_interval cfg))
       CatchingUp
       (mkPass (nextValidationAt s) p (validate (answers p) false (missingCount s))
          :: passes s)
       tbl).
Proof.
  intros Hmax Hdue Hex (Hth & Hnext & Hok).
  unfold in_step, thresholds in *. cbn [passes nextValidationAt length rev].
  set (n := Z.of_nat (length (passes s))) in *.
  assert (0 <= n) as Hn by lia.
  replace (Z.of_nat (S (length (passes s)))) with (n + 1) by lia.
  split; [| split].
  - rewrite fmap_app, Hth, (seqZ_app 1 n 1), fmap_app by lia.
    f_equal. cbn [threshold fmap list_fmap]. rewrite Hnext.
    change (seqZ (1 + n) 1) with [0 + (1 + n)].
    change ([(n + 1) * validation_interval cfg]
            = [(0 + (1 + n)) * validation_interval cfg]).
    do 2 f_equal. lia.
  - rewrite uint64_wrap_small; [lia |]. nia.
  - constructor; [| done].
    unfold pass_ok. cbn [threshold asked validation].
    split; [lia |]. split; [by eexists |]. split; [done |].
    unfold validate in *. by rewrite (validate_from_reports _ _ _ _ _ Hex).
Qed.

Lemma in_step_poll (s : scheduler) (p : poll) :
  in_step cfg s -> in_step cfg (poll_step cfg s p).
Proof.
  intros Hs. unfold poll_step.
  assert (in_step cfg
    (if max_events cfg <=? observed p
     then mkScheduler (nextValidationAt s) Returned (passes s) (missingCount s)
     else if observed p <? nextValidationAt s
     then mkScheduler (nextValidationAt s) Waiting (passes s) (missingCount s)
     else
       match exited (validate (answers p) false (missingCount s)) with
       | Some c =>
           mkScheduler (nextValidationAt s) (Exited c) (passes s)
                       (table (validate (answers p) false (missingCount s)))
       | None =>
           mkScheduler
             (uint64_wrap (nextValidationAt s + validation_interval cfg))
             CatchingUp
             (mkPass (nextValidationAt s) p
                (validate (answers p) false (missingCount s)) :: passes s)
             (table (validate (answers p) false (missingCount s)))
       end)) as Hbody.
  { destruct (Z.leb_spec (max_events cfg) (observed p)) as [|Hmax];
      [by apply (in_step_same s) |].
    destruct (Z.ltb_spec (observed p) (nextValidationAt s)) as [|Hdue];
      [by apply (in_step_same s) |].
    destruct (exited (validate (answers p) false (missingCount s))) eqn:Hex;
      [by apply (in_step_same s) |].
    by apply in_step_pass. }
  by destruct (at_ s).
Qed.

Lemma in_step_run (polls : list poll) : in_step cfg (run cfg polls).
Proof.
  unfold run. induction polls as [|p polls IH] using rev_ind.
  - apply in_step_start.
  - rewrite foldl_app. cbn [foldl]. by apply in_step_poll.
Qed.

(** One turn of the catch-up loop, for a count below the ceiling and nodes
    that make no pass exit: back to the ticker when the count is below the
    next threshold, one more pass otherwise. *)
Lemma poll_step_below (s : scheduler) (p : poll) :
  at_ s = Waiting \/ at_ s = CatchingUp ->
  observed p < max_events cfg ->
  (forall tbl : gmap string Z, exited (validate (answers p) false tbl) = None) ->
  (observed p < nextValidationAt s ->
   at_ (poll_step cfg s p) = Waiting) /\
  (nextValidationAt s <= observed p ->
   poll_step cfg s p =
     mkScheduler (uint64_wrap (nextValidationAt s + validation_interval cfg))
       CatchingUp
       (mkPass (nextValidationAt s) p (validate (answers p) false (missingCount s))
          :: passes s)
       (table (validate (answers p) false (missingCount s)))).
Proof.
  intros Hat Hmax Hquiet. unfold poll_step.
  destruct (Z.leb_spec (max_events cfg) (observed p)); [lia |].
  destruct (Z.ltb_spec (observed p) (nextValidationAt s)).
  - split; [| lia]. intros _. by destruct Hat as [-> | ->].
  - split; [lia |]. intros _. rewrite Hquiet. by destruct Hat as [-> | ->].
Qed.

(** The catch-up loop ends. Whatever counts below the ceiling the scheduler
    reads, one after the other, and whatever the nodes answer short of
    making a pass exit: each turn that does not bring the scheduler back to
    its ticker moves its threshold up by the interval, so it is back there
    within one turn more than there are multiples left below the ceiling. *)
Lemma catch_up_ends (more : list poll) :
  Forall (fun p => observed p < max_events cfg /\
                   forall tbl : gmap string Z,
                     exited (validate (answers p) false tbl) = None) more ->
  more <> [] ->
  forall s : scheduler,
    in_step cfg s -> at_ s = Waiting \/ at_ s = CatchingUp ->
    max_events cfg - nextValidationAt s
      <= (Z.of_nat (length more) - 1) * validation_interval cfg ->
    exists k : nat,
      (k <= length more)%nat /\
      at_ (foldl (poll_step cfg) s (take k more)) = Waiting.
Proof.
  induction 1 as [|p rest [Hmax Hquiet] Hrest IH]; intros Hne s Hs Hat Hm; [done |].
  destruct (poll_step_below s p Hat Hmax Hquiet) as [Hwait Hpass].
  destruct (Z.ltb_spec (observed p) (nextValidationAt s)) as [Hlt | Hdue].
  - exists 1%nat. split; [cbn; lia |]. cbn [take foldl]. rewrite take_0. cbn [foldl].
    by apply Hwait.
  - specialize (Hpass Hdue).
    assert (rest <> []) as Hrest_ne.
    { intros ->. cbn [length] in Hm. lia. }
    destruct (IH Hrest_ne (poll_step cfg s p)) as (k & Hk & Hwaiting).
    + by apply in_step_poll.
    + right. by rewrite Hpass.
    + destruct Hs as (_ & Hnext & _).
      rewrite Hpass. cbn [nextValidationAt length] in Hm |- *.
      rewrite uint64_wrap_small; [lia |]. nia.
    + exists (S k). split; [cbn [length]; lia |]. exact Hwaiting.
Qed.

(** C9 (amended). While the counts it reads stay below the ceiling, the
    scheduler validates the multiples of the interval one after the other,
    none left out: the passes it has run are, in order, those for the
    thresholds [interval], [2 * interval], ..., each a non-final pass through
    every node, triggered by a count that had reached its threshold; its next
    threshold is the multiple after them. Whenever it is back at its ticker,
    every multiple up to the count it last read has been validated. In the
    catch-up loop, a count below the ceiling that has reached the next
    threshold gives one more pass, for that threshold, and any other count
    below the ceiling takes the scheduler back to its ticker; whatever such
    counts it reads, it is back there within one turn more than there are
    multiples left below the ceiling. Once it reads a count at or above the
    ceiling it returns at once and runs no pass after that: the thresholds
    that were still to be validated then are not. *)
Theorem scheduler_validates_every_threshold (polls : list poll) :
  let s := run cfg polls in
  let n := Z.of_nat (length (passes s)) in
  thresholds s = (fun k => k * validation_interval cfg) <$> seqZ 1 n /\
  nextValidationAt s = (n + 1) * validation_interval cfg /\
  Forall (pass_ok cfg) (passes s) /\
  (forall (before : list poll) (p : poll),
     polls = before ++ [p] -> at_ s = Waiting ->
     forall k : Z, 0 < k -> k * validation_interval cfg <= observed p ->
                   k * validation_interval cfg ∈ thresholds s) /\
  (forall p : poll,
     at_ s = Waiting \/ at_ s = CatchingUp ->
     observed p < max_events cfg ->
     (forall tbl : gmap string Z, exited (validate (answers p) false tbl) = None) ->
     (observed p < nextValidationAt s -> at_ (poll_step cfg s p) = Waiting) /\
     (nextValidationAt s <= observed p ->
      at_ (poll_step cfg s p) = CatchingUp /\
      thresholds (poll_step cfg s p) = thresholds s ++ [nextValidationAt s] /\
      nextValidationAt (poll_step cfg s p)
        = nextValidationAt s + validation_interval cfg)) /\
  (forall more : list poll,
     at_ s = Waiting \/ at_ s = CatchingUp ->
     Forall (fun p => observed p < max_events cfg /\
                      forall tbl : gmap string Z,
                        exited (validate (answers p) false tbl) = None) more ->
     more <> [] ->
     max_events cfg - nextValidationAt s
       <= (Z.of_nat (length more) - 1) * validation_interval cfg ->
     exists k : nat,
       (k <= length more)%nat /\
       at_ (run cfg (polls ++ take k more)) = Waiting) /\
  (forall p : poll,
     at_ s = Waiting \/ at_ s = CatchingUp -> max_events cfg <= observed p ->
     at_ (poll_step cfg s p) = Returned /\
     passes (poll_step cfg s p) = passes s) /\
  (at_ s = Returned -> forall p : poll, poll_step cfg s p = s).
Proof.
  intros s n. pose proof (in_step_run polls) as Hs. fold s in Hs.
  destruct Hs as (Hth & Hnext & Hok). fold n in Hth, Hnext.
  split; [exact Hth |]. split; [exact Hnext |]. split; [exact Hok |].
  split; [| split; [| split; [| split]]].
  - intros before p -> Hat k Hk Hle.
    assert (observed p < nextValidationAt s) as Hlt.
    { unfold s, run in Hat |- *. rewrite foldl_app in Hat |- *.
      cbn [foldl] in Hat |- *.
      set (s0 := foldl (poll_step cfg) (start cfg) before) in *.
      unfold poll_step in Hat |- *.
      destruct (at_ s0) eqn:Hat0; try (rewrite Hat0 in Hat; discriminate);
        destruct (Z.leb_spec (max_events cfg) (observed p)); try discriminate;
        destruct (Z.ltb_spec (observed p) (nextValidationAt s0)); try done;
        by destruct (exited (validate (answers p) false (missingCount s0))). }
    rewrite Hth. apply list_elem_of_fmap. exists k. split; [done |].
    apply elem_of_seqZ. nia.
  - intros p Hat Hmax Hquiet.
    destruct (poll_step_below s p Hat Hmax Hquiet) as [Hwait Hpass].
    split; [exact Hwait |]. intros Hdue. rewrite (Hpass Hdue).
    cbn [at_ nextValidationAt]. unfold thresholds. cbn [passes rev].
    rewrite fmap_app. cbn [fmap list_fmap threshold].
    split; [done |]. split; [done |].
    rewrite uint64_wrap_small; [done |].
    assert (0 <= n) by lia. nia.
  - intros more Hat Hmore Hne Hm.
    destruct (catch_up_ends more Hmore Hne s) as (k & Hk & Hwaiting);
      [apply in_step_run | exact Hat | exact Hm |].
    exists k. split; [exact Hk |]. unfold run. by rewrite foldl_app.
  - intros p Hat Hmax. unfold poll_step.
    destruct (Z.leb_spec (max_events cfg) (observed p)); [| lia].
    by destruct Hat as [-> | ->].
  - intros Hat p. unfold poll_step. by rewrite Hat.
Qed.

End SchedulerFacts.

(** C9 (as stated, refuted). With the constants of [main.go]: the scheduler
    reads the count 7600, three multiples of 2500 having been crossed, and
    validates for the first; when it reads the counter again the writers
    have reached 100000, and it returns. The thresholds 5000 and 7500, below
    the ceiling and crossed, are never validated. *)
Lemma pending_thresholds_dropped_at_ceiling :
  let quiet := [Validation.scenario 0 []; Validation.scenario 0 [];
                Validation.scenario 0 []] in
  let s := Scheduler.run main_config
             [Scheduler.mkPoll 7600 quiet; Scheduler.mkPoll 100000 quiet] in
  Scheduler.thresholds s = [2500] /\ Scheduler.at_ s = Scheduler.Returned /\
  forall p : Scheduler.poll, Scheduler.poll_step main_config s p = s.
Proof.
  cbn zeta. split; [vm_compute; reflexivity |].
  assert (Scheduler.at_
            (Scheduler.run main_config
               [Scheduler.mkPoll 7600
                  [Validation.scenario 0 []; Validation.scenario 0 [];
                   Validation.scenario 0 []];
                Scheduler.mkPoll 100000
                  [Validation.scenario 0 []; Validation.scenario 0 [];
                   Validation.scenario 0 []]]) = Scheduler.Returned) as Hat
    by (vm_compute; reflexivity).
  split; [exact Hat |].
  intros p. unfold Scheduler.poll_step. by rewrite Hat.
Qed.

Lemma scheduler_validates_every_threshold_witness :
  let cfg := mkConfig 2 10 3 in
  let nodes rows :=
    [Validation.scenario (Z.of_nat (length rows)) rows;
     Validation.scenario (Z.of_nat (length rows)) rows;
     Validation.scenario (Z.of_nat (length rows)) rows] in
  let polls :=
    [Scheduler.mkPoll 2 (nodes [0; 1]);
     Scheduler.mkPoll 7 (nodes [0; 1; 2; 3; 4; 5; 6]);
     Scheduler.mkPoll 7 (nodes [0; 1; 2; 3; 4; 5; 6]);
     Scheduler.mkPoll 8 (nodes [0; 1; 2; 3; 4; 5; 6; 7])] in
  0 < validation_interval cfg /\
  max_events cfg + validation_interval cfg <= 2 ^ 64 /\
  Scheduler.thresholds (Scheduler.run cfg polls) = [3; 6] /\
  Scheduler.at_ (Scheduler.run cfg polls) = Scheduler.Waiting /\
  (fun p => (Scheduler.observed (Scheduler.asked p),
             Validation.outcome
               <$> Validation.reports (Scheduler.validation p)))
    <$> rev (Scheduler.passes (Scheduler.run cfg polls))
  = [(7, [Validation.Passed; Validation.Passed; Validation.Passed]);
     (7, [Validation.Passed; Validation.Passed; Validation.Passed])].
Proof.
  intros cfg nodes polls.
  assert (0 < validation_interval cfg) as HI by (vm_compute; reflexivity).
  assert (max_events cfg + validation_interval cfg <= 2 ^ 64)
    as Hwrap by (vm_compute; discriminate).
  split; [exact HI |]. split; [exact Hwrap |].
  split; [| split; vm_compute; reflexivity].
  rewrite (proj1 (scheduler_validates_every_threshold cfg HI Hwrap polls)).
  vm_compute. reflexivity.
Defined.

(** * Further properties *)

(** ** The validation engine: what a pass has counted *)

Section ValidationMore.
Import Validation.

Implicit Types (st : scan) (h : Z) (final : bool) (tbl : gmap string Z)
  (vals : list Z).

(** The entries of [seen] after a row. *)
Lemma scan_event_seen final h st st' (e : Z) (k : Z) :
  scan_event final h st e = Ok st' ->
  seen st' !! k =
    if decide (k = int_of_uint64 e /\ 0 <= k < h) then Some true else seen st !! k.
Proof.
  unfold scan_event.
  destruct (Z.ltb_spec (int_of_uint64 e) 0).
  { intros [= <-]. cbn. rewrite decide_False; [done | lia]. }
  destruct (Z.leb_spec h (int_of_uint64 e)); cbn [andb].
  { destruct final; cbn [negb]; intros [= <-]; cbn;
      (rewrite decide_False; [done | lia]). }
  destruct (default false (seen st !! int_of_uint64 e)); [done |].
  intros [= <-]. cbn. destruct (decide (k = int_of_uint64 e)) as [->|Hne].
  - rewrite lookup_insert_eq. rewrite decide_True; [done | lia].
  - rewrite lookup_insert_ne by done. rewrite decide_False; [done | tauto].
Qed.

Lemma seen_tells_init h : seen_tells h [] (init_seen h).
Proof.
  intros k. rewrite lookup_init_seen. destruct (decide (0 <= k < h)); [| done].
  by rewrite bool_decide_eq_false_2 by apply not_elem_of_nil.
Qed.

Lemma scan_event_tells final h vals st st' (e : Z) :
  seen_tells h vals (seen st) -> scan_event final h st e = Ok st' ->
  seen_tells h (vals ++ [int_of_uint64 e]) (seen st').
Proof.
  intros Htells He k. rewrite (scan_event_seen _ _ _ _ _ k He), (Htells k).
  destruct (decide (0 <= k < h)) as [Hk|Hk].
  - destruct (decide (k = int_of_uint64 e /\ 0 <= k < h)) as [[-> _]|Hne].
    + rewrite bool_decide_eq_true_2; [done |].
      apply elem_of_app. right. apply list_elem_of_here.
    + f_equal. apply bool_decide_ext. rewrite elem_of_app, list_elem_of_singleton.
      tauto.
  - rewrite decide_False; [done | tauto].
Qed.

Lemma scan_page_tells final h vals (l : list Z) st st' :
  seen_tells h vals (seen st) -> scan_page final h l st = Ok st' ->
  seen_tells h (vals ++ (int_of_uint64 <$> l)) (seen st').
Proof.
  revert vals st. induction l as [|e l IH]; intros vals st Htells; cbn [scan_page].
  - intros [= <-]. by rewrite app_nil_r.
  - destruct (scan_event final h st e) as [st1|c] eqn:He; [| done].
    cbn [mbind result_bind fmap list_fmap]. intros Hl.
    rewrite (cons_middle (int_of_uint64 e)), app_assoc.
    eapply IH; [| exact Hl]. by eapply scan_event_tells.
Qed.

(** The missing count of a map read against the list of its keys. *)
Lemma count_missed_keys (l : list Z) (f : Z -> bool) (m : gmap Z bool) :
  NoDup l ->
  (forall k, m !! k = if decide (k ∈ l) then Some (f k) else None) ->
  count_missed m = Z.of_nat (length (filter (fun k => f k = false) l)).
Proof.
  revert m. induction l as [|a l IH]; intros m Hnd Hm.
  - assert (m = ∅) as ->.
    { apply map_eq. intros k. rewrite Hm, lookup_empty.
      rewrite decide_False; [done | apply not_elem_of_nil]. }
    by rewrite count_missed_empty.
  - apply NoDup_cons in Hnd as [Ha Hnd].
    assert (m !! a = Some (f a)) as Hma.
    { rewrite Hm. rewrite decide_True; [done | apply list_elem_of_here]. }
    rewrite (count_missed_delete m a (f a) Hma).
    rewrite (IH (delete a m) Hnd).
    + rewrite filter_cons. destruct (decide (f a = false)) as [Hfa|Hfa].
      * rewrite Hfa. cbn [length]. lia.
      * destruct (f a); [cbn; lia | done].
    + intros k. destruct (decide (k = a)) as [->|Hne].
      * rewrite lookup_delete_eq. by rewrite decide_False.
      * rewrite lookup_delete_ne by done. rewrite Hm.
        destruct (decide (k ∈ l)) as [Hin|Hnin].
        -- rewrite decide_True; [done | by apply list_elem_of_further].
        -- rewrite decide_False; [done |].
           intros Hin. apply elem_of_cons in Hin as [?|?]; done.
Qed.

Lemma count_missed_tells h vals (m : gmap Z bool) :
  seen_tells h vals m ->
  count_missed m = Z.of_nat (length (filter (fun k => k ∉ vals) (seqZ 0 h))).
Proof.
  intros Htells.
  rewrite (count_missed_keys (seqZ 0 h) (fun k => bool_decide (k ∈ vals)) m).
  - f_equal. f_equal. apply list_filter_iff. intros k.
    rewrite bool_decide_eq_false. done.
  - apply NoDup_seqZ.
  - intros k. rewrite (Htells k).
    destruct (decide (0 <= k < h)) as [Hk|Hk].
    + rewrite decide_True; [done | apply elem_of_seqZ; lia].
    + rewrite decide_False; [done |]. rewrite elem_of_seqZ. lia.
Qed.

(** A node whose pages all hold rows is scanned as the stream of its rows. *)
Lemma validate_node_stream final (i : nat) h (pages : list (list Z)) tbl tbl'
    (r : report) :
  Forall (fun p => p <> []) pages ->
  validate_node final i (mkNode (Some h) (Some <$> pages)) tbl = Ok (tbl', r) ->
  highWaterMark r = h /\
  scan_page final h (concat pages) (init_scan h) = Ok (locals r) /\
  missed r = count_missed (seen (locals r)).
Proof.
  intros Hne Hv.
  apply validate_node_inv in Hv as (st & Hagg & Hscan & -> & Hm & _).
  cbn [aggregateCount eventPages] in Hagg, Hscan. injection Hagg as Hh.
  rewrite <- Hh in Hscan.
  split; [done |]. split; [| done].
  rewrite <- (app_nil_r (Some <$> pages)) in Hscan.
  rewrite scan_pages_stream in Hscan by done.
  destruct (scan_page final h (concat pages) (init_scan h)) as [st1|c];
    cbn [mbind result_bind scan_pages] in Hscan; [congruence | discriminate].
Qed.

(** X1. After a pass that did not exit, [seen] has an entry for each index
    below the high-water mark and for no other key; the entry is [true]
    exactly for the indices that occur among the rows enumerated, and the
    missing count is the number of indices that do not occur among them. *)
Theorem missing_are_the_absent_indices final (i : nat) h (pages : list (list Z))
    tbl tbl' (r : report) :
  Forall (fun p => p <> []) pages ->
  validate_node final i (mkNode (Some h) (Some <$> pages)) tbl = Ok (tbl', r) ->
  let vals := int_of_uint64 <$> concat pages in
  (forall k : Z, seen (locals r) !! k = Some true <-> 0 <= k < h /\ k ∈ vals) /\
  (forall k : Z, seen (locals r) !! k = Some false <-> 0 <= k < h /\ k ∉ vals) /\
  (forall k : Z, seen (locals r) !! k = None <-> ~ 0 <= k < h) /\
  missed r = Z.of_nat (length (filter (fun k => k ∉ vals) (seqZ 0 h))).
Proof.
  intros Hne Hv vals.
  destruct (validate_node_stream _ _ _ _ _ _ _ Hne Hv) as (_ & Hscan & Hm).
  pose proof (scan_page_tells final h [] _ (init_scan h) _ (seen_tells_init h) Hscan)
    as Htells.
  cbn [app] in Htells. fold vals in Htells.
  split; [| split; [| split]].
  - intros k. rewrite (Htells k). destruct (decide (0 <= k < h)) as [Hk|Hk].
    + split.
      * intros [= Hb]. split; [done |]. by apply bool_decide_eq_true in Hb.
      * intros [_ Hin]. by rewrite bool_decide_eq_true_2.
    + split; [done | tauto].
  - intros k. rewrite (Htells k). destruct (decide (0 <= k < h)) as [Hk|Hk].
    + split.
      * intros [= Hb]. split; [done |]. by apply bool_decide_eq_false in Hb.
      * intros [_ Hin]. by rewrite bool_decide_eq_false_2.
    + split; [done | tauto].
  - intros k. rewrite (Htells k). destruct (decide (0 <= k < h)); split; done.
  - rewrite Hm. by apply count_missed_tells.
Qed.

Lemma missing_are_the_absent_indices_witness :
  exists (tbl' : gmap string Z) (r : report),
    validate_node true 0 (mkNode (Some 5) (Some <$> [[0; 2; 3; 4]])) ∅
      = Ok (tbl', r) /\
    missed r =
      Z.of_nat (length (filter (fun k => k ∉ int_of_uint64 <$> concat [[0; 2; 3; 4]])
                          (seqZ 0 5))).
Proof.
  destruct (node_summary_Some _ _ _ _ _ _ _ scenario_C) as (tbl' & r & Hv & _).
  exists tbl', r. split; [exact Hv |].
  refine (proj2 (proj2 (proj2 (missing_are_the_absent_indices true 0 5
            [[0; 2; 3; 4]] ∅ tbl' r _ Hv)))).
  repeat constructor; discriminate.
Defined.




(** The only exit of a scan of rows is the duplicate, and its value has
    occurred before. *)
Lemma scan_page_exit_cause final h vals (l : list Z) st (c : exit_cause) :
  seen_tells h vals (seen st) -> scan_page final h l st = Exit c ->
  exists (v : Z) (l1 l2 : list Z),
    c = DuplicateValue v /\ 0 <= v < h /\
    int_of_uint64 <$> l = l1 ++ v :: l2 /\ v ∈ vals ++ l1.
Proof.
  revert vals st. induction l as [|e l IH]; intros vals st Htells; cbn [scan_page];
    [done |].
  destruct (scan_event final h st e) as [st1|c1] eqn:He; cbn [mbind result_bind].
  - intros Hl.
    destruct (IH _ _ (scan_event_tells _ _ _ _ _ _ Htells He) Hl)
      as (v & l1 & l2 & -> & Hv & Hsplit & Hin).
    exists v, (int_of_uint64 e :: l1), l2. cbn [fmap list_fmap].
    rewrite Hsplit. repeat split; try done; try lia.
    by rewrite <- app_assoc in Hin.
  - intros [= <-]. unfold scan_event in He.
    destruct (Z.ltb_spec (int_of_uint64 e) 0); [done |].
    destruct (Z.leb_spec h (int_of_uint64 e)); cbn [andb] in He;
      [by destruct final |].
    destruct (default false (seen st !! int_of_uint64 e)) eqn:Hseen; [| done].
    injection He as <-.
    exists (int_of_uint64 e), [], (int_of_uint64 <$> l).
    repeat split; try done; try lia.
    rewrite app_nil_r. rewrite (Htells (int_of_uint64 e)) in Hseen.
    rewrite decide_True in Hseen by lia. cbn in Hseen.
    by apply bool_decide_eq_true in Hseen.
Qed.

Lemma filter_twice_not_NoDup (P : Z -> Prop) `{!forall x, Decision (P x)}
    (a b : list Z) (v : Z) :
  v ∈ a -> P v -> ~ NoDup (filter P (a ++ v :: b)).
Proof.
  intros Hin Hv Hnd. rewrite filter_app, filter_cons, decide_True in Hnd by done.
  apply NoDup_app in Hnd as (_ & Hdisj & _).
  apply (Hdisj v); [by apply list_elem_of_filter | apply list_elem_of_here].
Qed.

(** X3. A duplicate report is never spurious, and nothing else makes a pass
    over an answering node exit: when the pass exits it reports a value below
    the high-water mark that occurs at least twice among the rows (or the node
    has no entry in [servers]); when no value below the high-water mark
    occurs twice, the pass over a node listed in [servers] runs to its end. *)
Theorem duplicate_reports_are_sound final (i : nat) h (pages : list (list Z)) tbl :
  Forall (fun p => p <> []) pages ->
  let vals := int_of_uint64 <$> concat pages in
  let client := mkNode (Some h) (Some <$> pages) in
  (forall c : exit_cause,
     validate_node final i client tbl = Exit c ->
     (exists (v : Z) (l1 l2 l3 : list Z),
        c = DuplicateValue v /\ 0 <= v < h /\ vals = l1 ++ v :: l2 ++ v :: l3) \/
     (c = ServerIndexOutOfRange i /\ servers !! i = None)) /\
  (NoDup (filter (fun v => 0 <= v < h) vals) -> (i < length servers)%nat ->
   exists (tbl' : gmap string Z) (r : report),
     validate_node final i client tbl = Ok (tbl', r)).
Proof.
  intros Hne vals client.
  assert (forall c, scan_page final h (concat pages) (init_scan h) = Exit c ->
            exists (v : Z) (l1 l2 l3 : list Z),
              c = DuplicateValue v /\ 0 <= v < h /\
              vals = l1 ++ v :: l2 ++ v :: l3) as Hdup.
  { intros c Hc.
    destruct (scan_page_exit_cause final h [] _ (init_scan h) _
                (seen_tells_init h) Hc)
      as (v & l1 & l2 & -> & Hv & Hsplit & Hin).
    cbn [app] in Hin. apply list_elem_of_split in Hin as (l0 & l0' & ->).
    exists v, l0, l0', l2. repeat split; try done; try lia.
    unfold vals. rewrite Hsplit. by rewrite <- app_assoc. }
  assert (scan_pages final h (Some <$> pages) 0 (init_scan h)
          = scan_page final h (concat pages) (init_scan h)) as Hstream.
  { rewrite <- (app_nil_r (Some <$> pages)), scan_pages_stream by done.
    by destruct (scan_page final h (concat pages) (init_scan h)). }
  unfold validate_node, client. cbn [aggregateCount eventPages]. rewrite Hstream.
  split.
  - intros c.
    destruct (scan_page final h (concat pages) (init_scan h)) as [st|c0] eqn:Hscan;
      cbn [mbind result_bind].
    + destruct (negb (countSeen st =? h)); [done |].
      destruct (servers !! i) eqn:Hsrv; [done |].
      intros [= <-]. by right.
    + intros [= <-]. left. by apply Hdup.
  - intros Hnd Hi.
    destruct (scan_page final h (concat pages) (init_scan h)) as [st|c0] eqn:Hscan;
      cbn [mbind result_bind].
    + destruct (negb (countSeen st =? h)); [by eexists _, _ |].
      destruct (lookup_lt_is_Some_2 servers i Hi) as [server ->].
      by eexists _, _.
    + exfalso. destruct (Hdup c0 eq_refl) as (v & l1 & l2 & l3 & _ & Hv & Hvals).
      rewrite Hvals in Hnd.
      apply (filter_twice_not_NoDup (fun v => 0 <= v < h) (l1 ++ v :: l2) l3 v).
      * apply elem_of_app. right. apply list_elem_of_here.
      * done.
      * by rewrite <- app_assoc.
Qed.

Lemma duplicate_reports_are_sound_witness :
  exists (tbl' : gmap string Z) (r : report),
    validate_node true 0 (mkNode (Some 5) (Some <$> [[0; 8; 2]; [8; 4]])) ∅
    = Ok (tbl', r).
Proof.
  refine (proj2 (duplicate_reports_are_sound true 0 5 [[0; 8; 2]; [8; 4]] ∅ _) _ _).
  - repeat constructor; discriminate.
  - apply (bool_decide_unpack _). vm_compute. exact I.
  - cbn. lia.
Defined.

Lemma balanced_init h : balanced h (init_scan h).
Proof.
  split; cbn.
  - intros k Hk. rewrite lookup_init_seen, decide_True by done. by eexists.
  - rewrite count_missed_init. lia.
Qed.

Lemma scan_event_balanced h st st' (e : Z) :
  balanced h st -> scan_event false h st e = Ok st' -> balanced h st'.
Proof.
  intros [Hdom Hbal]. unfold scan_event.
  destruct (Z.ltb_spec (int_of_uint64 e) 0); [by intros [= <-] |].
  destruct (Z.leb_spec h (int_of_uint64 e)); cbn [andb negb]; [by intros [= <-] |].
  destruct (Hdom (int_of_uint64 e)) as [b Hb]; [lia |]. rewrite Hb. cbn.
  destruct b; [done |]. intros [= <-]. split; cbn.
  - intros k Hk. destruct (decide (int_of_uint64 e = k)) as [<-|Hne].
    + rewrite lookup_insert_eq. by eexists.
    + rewrite lookup_insert_ne by done. by apply Hdom.
  - rewrite count_missed_mark by done. lia.
Qed.

Lemma scan_pages_balanced h (ps : list (option (list Z))) (offset : Z) st st' :
  balanced h st -> scan_pages false h ps offset st = Ok st' -> balanced h st'.
Proof.
  assert (forall (l : list Z) st0 st1,
            balanced h st0 -> scan_page false h l st0 = Ok st1 -> balanced h st1)
    as Hpage.
  { induction l as [|e l IH]; intros st0 st1 Hb; cbn [scan_page].
    - by intros [= <-].
    - destruct (scan_event false h st0 e) as [st2|c] eqn:He; [| done].
      cbn [mbind result_bind]. apply IH. by eapply scan_event_balanced. }
  revert offset st. induction ps as [|[p|] ps IH]; intros offset st Hb.
  - by intros [= <-].
  - destruct p as [|e p]; [by intros [= <-] |]. cbn [scan_pages].
    destruct (scan_page false h (e :: p) st) as [st1|c] eqn:Hp; [| done].
    cbn [mbind result_bind]. apply IH. by eapply Hpage.
  - done.
Qed.

(** X4. A pass made while the writers run never records a gap. For a node
    with a non-negative aggregate count, [countSeen] and the missing count of
    such a pass add up to the high-water mark; so whenever the pass gives a
    verdict nothing is missing, the entry it writes in the table of missing
    counts is 0, and the verdict is [Failed] only for a row with a negative
    value. A value that is missing while the writers run always shows as a
    count mismatch. *)
Theorem running_pass_records_no_gap (i : nat) (client : node)
    (tbl tbl' : gmap string Z) (r : report) :
  validate_node false i client tbl = Ok (tbl', r) ->
  0 <= highWaterMark r ->
  countSeen (locals r) + missed r = highWaterMark r /\
  (outcome r <> Mismatch ->
   missed r = 0 /\
   exists server, servers !! i = Some server /\ tbl' = <[server := 0]> tbl) /\
  (outcome r = Failed -> 0 < outOfRange (locals r)) /\
  (0 < missed r -> outcome r = Mismatch /\ tbl' = tbl).
Proof.
  intros Hv Hh.
  apply validate_node_inv in Hv as (st & _ & Hscan & -> & Hm & Hcase).
  apply scan_pages_balanced in Hscan as [_ Hbal]; [| apply balanced_init].
  rewrite <- Hm in Hbal.
  split; [lia |].
  destruct Hcase as [(Hne & -> & ->) | (Heq & (server & Hsrv & ->) & ->)].
  - split; [done |]. split; [done | done].
  - assert (missed r = 0) as Hzero by lia. rewrite Hzero.
    split; [intros _; split; [done | by exists server] |].
    split; [| lia].
    destruct (Z.ltb_spec 0 (outOfRange st)); [done |].
    cbn. done.
Qed.

Lemma running_pass_records_no_gap_witness :
  exists (tbl' : gmap string Z) (r : report),
    validate_node false 0 (scenario 5 [0; 2; 3; 4]) ∅ = Ok (tbl', r) /\
    0 <= highWaterMark r /\ 0 < missed r /\ outcome r = Mismatch /\ tbl' = ∅.
Proof.
  assert (node_summary (validate_node false 0 (scenario 5 [0; 2; 3; 4]) ∅)
          = Some ([], (5, 4, 0, 1, Mismatch))) as Hsum by (vm_compute; reflexivity).
  destruct (node_summary_Some _ _ _ _ _ _ _ Hsum)
    as (tbl' & r & Hv & _ & Hh & _ & _ & Hm & _).
  assert (0 <= highWaterMark r) as Hpos by (rewrite Hh; discriminate).
  assert (0 < missed r) as Hgap by (rewrite Hm; reflexivity).
  exists tbl', r. split; [exact Hv |]. split; [exact Hpos |]. split; [exact Hgap |].
  exact (proj2 (proj2 (proj2 (running_pass_records_no_gap 0 _ ∅ tbl' r Hv Hpos))) Hgap).
Defined.

Lemma scan_event_max h final vals st st' (e : Z) :
  max_tracked h vals st -> scan_event final h st e = Ok st' ->
  max_tracked h (vals ++ [int_of_uint64 e]) st'.
Proof.
  intros (Hpos & Hge & Hin) He.
  assert (forall v, v ∈ vals ++ [int_of_uint64 e] ->
                    v ∈ vals \/ v = int_of_uint64 e) as Hsplit.
  { intros v Hv. apply elem_of_app in Hv as [?|Hv]; [by left |].
    right. by apply list_elem_of_singleton in Hv. }
  assert (maxValue st = 0 \/
          (maxValue st ∈ vals ++ [int_of_uint64 e] /\ 0 <= maxValue st < h)) as Hin'.
  { destruct Hin as [?|[? ?]]; [by left |]. right. split; [| done].
    apply elem_of_app. by left. }
  unfold scan_event in He.
  destruct (Z.ltb_spec (int_of_uint64 e) 0).
  { injection He as <-. split; [done |]. split; [| done].
    intros v Hv Hr. destruct (Hsplit v Hv) as [? | ->]; [auto | lia]. }
  destruct (Z.leb_spec h (int_of_uint64 e)); cbn [andb] in He.
  { destruct final; cbn [negb] in He; injection He as <-;
      (split; [done |]; split; [| done]);
      intros v Hv Hr; (destruct (Hsplit v Hv) as [? | ->]; [auto | lia]). }
  destruct (default false (seen st !! int_of_uint64 e)); [done |].
  injection He as <-. unfold max_tracked. cbn [maxValue].
  destruct (Z.ltb_spec (maxValue st) (int_of_uint64 e)).
  - split; [lia |]. split.
    + intros v Hv Hr. destruct (Hsplit v Hv) as [Hold | ->]; [| lia].
      specialize (Hge v Hold Hr). lia.
    + right. split; [| lia]. apply elem_of_app. right. apply list_elem_of_here.
  - split; [done |]. split; [| done].
    intros v Hv Hr. destruct (Hsplit v Hv) as [? | ->]; [auto | lia].
Qed.

Lemma scan_page_max h final vals (l : list Z) st st' :
  max_tracked h vals st -> scan_page final h l st = Ok st' ->
  max_tracked h (vals ++ (int_of_uint64 <$> l)) st'.
Proof.
  revert vals st. induction l as [|e l IH]; intros vals st Hm; cbn [scan_page].
  - intros [= <-]. by rewrite app_nil_r.
  - destruct (scan_event final h st e) as [st1|c] eqn:He; [| done].
    cbn [mbind result_bind fmap list_fmap]. intros Hl.
    rewrite (cons_middle (int_of_uint64 e)), app_assoc.
    eapply IH; [| exact Hl]. by eapply scan_event_max.
Qed.

(** X5. The [max] that a pass prints is the greatest value below the
    high-water mark among the rows: no such value is above it, and it is one
    of them, unless it is 0, which is also what is printed when there is
    none. Rows at or above the high-water mark and negative rows never move
    it. *)
Theorem max_is_greatest_value_in_range final (i : nat) h (pages : list (list Z))
    tbl tbl' (r : report) :
  Forall (fun p => p <> []) pages ->
  validate_node final i (mkNode (Some h) (Some <$> pages)) tbl = Ok (tbl', r) ->
  let vals := int_of_uint64 <$> concat pages in
  0 <= maxValue (locals r) /\
  (forall v, v ∈ vals -> 0 <= v < h -> v <= maxValue (locals r)) /\
  (maxValue (locals r) = 0 \/
   (maxValue (locals r) ∈ vals /\ 0 <= maxValue (locals r) < h)).
Proof.
  intros Hne Hv vals.
  destruct (validate_node_stream _ _ _ _ _ _ _ Hne Hv) as (_ & Hscan & _).
  apply (scan_page_max h final [] _ (init_scan h) _) in Hscan; [exact Hscan |].
  split; [done |]. split; [| by left].
  intros v Hin. by apply elem_of_nil in Hin.
Qed.

Lemma max_is_greatest_value_in_range_witness :
  exists (tbl' : gmap string Z) (r : report),
    validate_node true 0 (mkNode (Some 5) (Some <$> [[0; 1; 2; 3; 4; 7]])) ∅
      = Ok (tbl', r) /\
    0 <= maxValue (locals r) /\
    (3 ∈ int_of_uint64 <$> concat [[0; 1; 2; 3; 4; 7]] -> 0 <= 3 < 5 ->
     3 <= maxValue (locals r)).
Proof.
  destruct (node_summary_Some _ _ _ _ _ _ _ scenario_D_final) as (tbl' & r & Hv & _).
  exists tbl', r. split; [exact Hv |].
  assert (Forall (fun p : list Z => p <> []) [[0; 1; 2; 3; 4; 7]]) as Hne
    by (repeat constructor; discriminate).
  destruct (max_is_greatest_value_in_range true 0 5 [[0; 1; 2; 3; 4; 7]]
              ∅ tbl' r Hne Hv) as (Hpos & Hge & _).
  split; [exact Hpos | exact (Hge 3)].
Defined.

(** X6. The enumeration of a node ends at the first empty page: whatever the
    node would answer to later page queries is never asked for, and the pass
    ends as if the pages before the empty one were all there is. *)
Theorem empty_page_ends_enumeration final (i : nat) h (before : list (list Z))
    (after : list (option (list Z))) tbl :
  Forall (fun p => p <> []) before ->
  validate_node final i (mkNode (Some h) ((Some <$> before) ++ Some [] :: after)) tbl
  = validate_node final i (mkNode (Some h) (Some <$> before)) tbl.
Proof.
  intros Hne. unfold validate_node. cbn [aggregateCount eventPages].
  rewrite scan_pages_stream by done.
  rewrite <- (app_nil_r (Some <$> before)).
  rewrite scan_pages_stream by done.
  by destruct (scan_page final h (concat before) (init_scan h)).
Qed.

Lemma empty_page_ends_enumeration_witness :
  validate_node true 0
    (mkNode (Some 5) ((Some <$> [[0; 1]; [2]]) ++ Some [] :: [Some [3; 4]; None])) ∅
  = validate_node true 0 (mkNode (Some 5) (Some <$> [[0; 1]; [2]])) ∅.
Proof.
  apply (empty_page_ends_enumeration true 0 5 [[0; 1]; [2]] [Some [3; 4]; None] ∅).
  repeat constructor; discriminate.
Defined.

(** X7. A node that cannot be reached ends the process. When the aggregate
    query fails no page is asked for; when the query for the page after [n]
    pages of rows fails, the pass exits naming the offset [n * 1000] of that
    query. Either way [validate] stops there: the table of missing counts and
    the reports are as the nodes before left them, and the nodes after are
    not validated. *)
Theorem unreachable_node_ends_process final (i : nat) h (before : list (list Z))
    (after : list (option (list Z))) (others : list node) tbl
    (printed : list report) st :
  Forall (fun p => p <> []) before ->
  scan_page final h (concat before) (init_scan h) = Ok st ->
  validate_from final i
    (mkNode (Some h) ((Some <$> before) ++ None :: after) :: others) tbl printed
  = mkValidated tbl printed
      (Some (PageQueryFailed (pageSize * Z.of_nat (length before)))) /\
  validate_from final i (mkNode None after :: others) tbl printed
  = mkValidated tbl printed (Some AggregateQueryFailed).
Proof.
  intros Hne Hscan. split; [| done].
  cbn [validate_from]. unfold validate_node. cbn [aggregateCount eventPages].
  rewrite scan_pages_stream by done. rewrite Hscan.
  cbn [mbind result_bind scan_pages]. done.
Qed.

Lemma unreachable_node_ends_process_witness :
  validate_from true 1
    [mkNode (Some 5) ((Some <$> [[0; 1]; [2]]) ++ None :: [Some [3]]);
     scenario 5 [0; 1; 2; 3; 4]] ∅ []
  = mkValidated ∅ [] (Some (PageQueryFailed (pageSize * Z.of_nat (length [[0; 1]; [2]])))).
Proof.
  destruct (scan_page true 5 (concat [[0; 1]; [2]]) (init_scan 5)) as [st|c] eqn:Hscan.
  - refine (proj1 (unreachable_node_ends_process true 1 5 [[0; 1]; [2]] [Some [3]]
              [scenario 5 [0; 1; 2; 3; 4]] ∅ [] st _ Hscan)).
    repeat constructor; discriminate.
  - exfalso.
    assert (match scan_page true 5 (concat [[0; 1]; [2]]) (init_scan 5) with
            | Ok _ => true | Exit _ => false end = true) as Hok
      by (vm_compute; reflexivity).
    rewrite Hscan in Hok. discriminate.
Defined.

Lemma validate_from_frame final (clients : list node) :
  forall (i : nat) tbl (printed : list report) (key : string),
    key ∉ take (length clients) (drop i servers) ->
    table (validate_from final i clients tbl printed) !! key = tbl !! key.
Proof.
  induction clients as [|client clients IH]; intros i tbl printed key Hkey;
    cbn [validate_from]; [done |].
  destruct (validate_node final i client tbl) as [[tbl' r]|c] eqn:Hv; [| done].
  apply validate_node_inv in Hv as (st & _ & _ & _ & _ & Hcase).
  assert (key ∉ take (length clients) (drop (S i) servers)) as Hrest.
  { intros Hin. apply Hkey. cbn [length].
    destruct (servers !! i) as [server|] eqn:Hsrv.
    - rewrite (drop_S _ _ _ Hsrv). cbn [take]. by apply list_elem_of_further.
    - rewrite drop_ge in Hin by (apply lookup_ge_None in Hsrv; lia).
      rewrite take_nil in Hin. by apply elem_of_nil in Hin. }
  rewrite (IH _ _ _ _ Hrest).
  destruct Hcase as [(_ & -> & _) | (_ & (server & Hsrv & ->) & _)]; [done |].
  apply lookup_insert_ne. intros <-. apply Hkey.
  rewrite (drop_S _ _ _ Hsrv). cbn [length take]. apply list_elem_of_here.
Qed.

Lemma validate_from_entries final (clients : list node) :
  forall (i : nat) tbl (printed : list report) (key : string) (m : Z),
    table (validate_from final i clients tbl printed) !! key = Some m ->
    tbl !! key = Some m \/ (key ∈ servers /\ 0 <= m).
Proof.
  induction clients as [|client clients IH]; intros i tbl printed key m;
    cbn [validate_from]; [by left |].
  destruct (validate_node final i client tbl) as [[tbl' r]|c] eqn:Hv; [| by left].
  apply validate_node_inv in Hv as (st & _ & _ & _ & Hm & Hcase).
  intros Hlook. destruct (IH _ _ _ _ _ Hlook) as [Hold|?]; [| by right].
  destruct Hcase as [(_ & -> & _) | (_ & (server & Hsrv & ->) & _)]; [by left |].
  destruct (decide (server = key)) as [->|Hne].
  - rewrite lookup_insert_eq in Hold. injection Hold as <-. right.
    split; [by eapply list_elem_of_lookup_2 |].
    rewrite Hm. apply count_missed_nonneg.
  - rewrite lookup_insert_ne in Hold by done. by left.
Qed.

(** X8. [validate] writes to the table of missing counts only under the
    addresses of the nodes it was given: every other key keeps its entry, and
    an entry found afterwards is either the one that was there or a missing
    count, not negative, under an address of [servers]. *)
Theorem validate_writes_only_its_nodes (clients : list node) final tbl :
  (forall key : string,
     key ∉ take (length clients) servers ->
     table (validate clients final tbl) !! key = tbl !! key) /\
  (forall (key : string) (m : Z),
     table (validate clients final tbl) !! key = Some m ->
     tbl !! key = Some m \/ (key ∈ servers /\ 0 <= m)).
Proof.
  split.
  - intros key Hkey. by apply validate_from_frame.
  - intros key m. apply validate_from_entries.
Qed.

Lemma validate_writes_only_its_nodes_witness :
  table (validate [scenario 5 [0; 1; 2; 3; 4]] true
           {[ "http://localhost:8081"%string := 7 ]})
    !! "http://localhost:8081"%string
  = ({[ "http://localhost:8081"%string := 7 ]} : gmap string Z)
    !! "http://localhost:8081"%string.
Proof.
  apply (proj1 (validate_writes_only_its_nodes [scenario 5 [0; 1; 2; 3; 4]] true _)).
  apply (bool_decide_unpack _). vm_compute. exact I.
Defined.

End ValidationMore.

(** ** The backup scanner *)

Section ScannerFacts.
Import BackupScanner.

Implicit Types (st : list bool * Z) (vals : list Z) (els : list element).

Example scanner_readme :
  main (mkFlags "g01.json" 6 true)
       (Some (mkContents ArrayStart
                [Object (Some 0); Object None; Object (Some 2); Object (Some 5);
                 Object (Some 2); Object (Some 9); Object (Some 3)] false))
       true
  = Finished (mkListing [1; 4] 5 4 2).
Proof. vm_compute. reflexivity. Qed.

Lemma filter_ext_in {A : Type} (P Q : A -> Prop)
    `{!forall x, Decision (P x)} `{!forall x, Decision (Q x)} (l : list A) :
  (forall x, x ∈ l -> (P x <-> Q x)) -> filter P l = filter Q l.
Proof.
  induction l as [|a l IH]; intros Hext; [done |].
  rewrite !filter_cons.
  assert (P a <-> Q a) as Ha by apply Hext, list_elem_of_here.
  rewrite IH by (intros x Hx; by apply Hext, list_elem_of_further).
  destruct (decide (P a)), (decide (Q a)); tauto.
Qed.

(** Adding a value to those met adds one index to those seen, when the value
    is an index that was not seen. *)
Lemma seen_indices_snoc (maxValue : Z) vals (v : Z) :
  Z.of_nat (length (filter (fun k => k ∈ vals ++ [v]) (seqZ 0 maxValue))) =
  Z.of_nat (length (filter (fun k => k ∈ vals) (seqZ 0 maxValue)))
  + (if decide (0 <= v < maxValue /\ v ∉ vals) then 1 else 0).
Proof.
  assert (forall l : list Z, NoDup l ->
    Z.of_nat (length (filter (fun k => k ∈ vals ++ [v]) l)) =
    Z.of_nat (length (filter (fun k => k ∈ vals) l))
    + (if decide (v ∈ l /\ v ∉ vals) then 1 else 0)) as Hgen.
  { induction l as [|a l IH]; intros Hnd.
    - cbn. rewrite decide_False; [done |]. intros [Hin _]. by apply elem_of_nil in Hin.
    - apply NoDup_cons in Hnd as [Ha Hnd]. specialize (IH Hnd).
      rewrite !filter_cons.
      destruct (decide (a ∈ vals ++ [v])) as [H1|H1],
               (decide (a ∈ vals)) as [H2|H2],
               (decide (v ∈ l /\ v ∉ vals)) as [H3|H3],
               (decide (v ∈ a :: l /\ v ∉ vals)) as [H4|H4];
        cbn [length]; try lia; exfalso;
        rewrite ?elem_of_app, ?list_elem_of_singleton, ?elem_of_cons in *;
        try tauto;
        repeat match goal with
               | H : _ /\ _ |- _ => destruct H
               | H : _ \/ _ |- _ => destruct H
               end; subst; tauto. }
  rewrite (Hgen _ (NoDup_seqZ 0 maxValue)).
  destruct (decide (v ∈ seqZ 0 maxValue /\ v ∉ vals)) as [[Hin ?]|Hn],
           (decide (0 <= v < maxValue /\ v ∉ vals)) as [[? ?]|Hn']; try done.
  - apply elem_of_seqZ in Hin. exfalso. apply Hn'. split; [lia | done].
  - exfalso. apply Hn. split; [apply elem_of_seqZ; lia | done].
Qed.

Lemma slice_tells_start (maxValue : Z) :
  slice_tells maxValue [] (replicate (Z.to_nat maxValue) false, 0).
Proof.
  split; [| split]; cbn [fst snd].
  - apply length_replicate.
  - intros i Hi. rewrite lookup_replicate_2 by done.
    by rewrite bool_decide_eq_false_2 by apply not_elem_of_nil.
  - rewrite (filter_ext_in _ (fun _ => False)).
    + induction (seqZ 0 maxValue) as [|a l IH]; [done |].
      rewrite filter_cons. by destruct (decide False).
    + intros x _. split; [apply not_elem_of_nil | done].
Qed.

Lemma note_tells (maxValue : Z) vals st (obj : option Z) :
  slice_tells maxValue vals st ->
  slice_tells maxValue (vals ++ option_list obj) (note maxValue st obj).
Proof.
  intros (Hlen & Hlook & Htot). destruct obj as [value|]; cbn [note];
    [| by rewrite app_nil_r].
  change (option_list (Some value)) with [value]. unfold slice_tells.
  assert (forall i : nat, i <> Z.to_nat value \/ ~ 0 <= value ->
            bool_decide (Z.of_nat i ∈ vals ++ [value])
            = bool_decide (Z.of_nat i ∈ vals)) as Hother.
  { intros i Hi. apply bool_decide_ext.
    rewrite elem_of_app, list_elem_of_singleton. split; [| tauto].
    intros [?|Heq]; [done |]. lia. }
  destruct (Z.leb_spec 0 value) as [Hpos|Hneg]; cbn [andb].
  2:{ split; [done |]. split.
      - intros i Hi. rewrite (Hlook i Hi). f_equal. symmetry. apply Hother. lia.
      - rewrite seen_indices_snoc, decide_False by lia. lia. }
  destruct (Z.ltb_spec value maxValue) as [Hlt|Hge].
  2:{ split; [done |]. split.
      - intros i Hi. rewrite (Hlook i Hi). f_equal. symmetry. apply Hother. lia.
      - rewrite seen_indices_snoc, decide_False by lia. lia. }
  assert (Z.to_nat value < Z.to_nat maxValue)%nat as Hidx by lia.
  rewrite (Hlook (Z.to_nat value) Hidx). rewrite Z2Nat.id by done.
  destruct (decide (value ∈ vals)) as [Hin|Hnin].
  - rewrite bool_decide_eq_true_2 by done. cbn [from_option id negb].
    split; [done |]. split.
    + intros i Hi. rewrite (Hlook i Hi). f_equal. apply bool_decide_ext.
      rewrite elem_of_app, list_elem_of_singleton. split; [tauto |].
      intros [? | ->]; done.
    + rewrite seen_indices_snoc, decide_False by tauto. lia.
  - rewrite bool_decide_eq_false_2 by done. cbn [from_option id negb fst snd].
    split; [| split].
    + by rewrite length_insert.
    + intros i Hi. destruct (decide (i = Z.to_nat value)) as [->|Hne].
      * rewrite list_lookup_insert_eq by lia. f_equal. symmetry.
        apply bool_decide_eq_true_2. rewrite Z2Nat.id by done.
        apply elem_of_app. right. apply list_elem_of_here.
      * rewrite list_lookup_insert_ne by done. rewrite (Hlook i Hi).
        f_equal. symmetry. apply Hother. by left.
    + rewrite seen_indices_snoc, decide_True by done. lia.
Qed.

Lemma decode_all_tells (maxValue : Z) els vals st st' :
  slice_tells maxValue vals st -> decode_all maxValue els st = Some st' ->
  slice_tells maxValue (vals ++ values_of els) st'.
Proof.
  revert vals st. induction els as [|[|obj] els IH]; intros vals st Htells;
    cbn [decode_all].
  - intros [= <-]. unfold values_of. cbn. by rewrite app_nil_r.
  - done.
  - intros Hrest.
    replace (vals ++ values_of (Object obj :: els))
      with ((vals ++ option_list obj) ++ values_of els).
    + eapply IH; [| exact Hrest]. by apply note_tells.
    + rewrite <- app_assoc. f_equal. unfold values_of. cbn. by destruct obj.
Qed.


Lemma list_missing_spec (pm : bool) (seen : list bool) :
  forall (i : Z) (f : Z -> bool),
    (forall j : nat, (j < length seen)%nat -> seen !! j = Some (f (i + Z.of_nat j))) ->
    list_missing pm i seen =
      (if pm then filter (fun k => f k = false) (seqZ i (Z.of_nat (length seen)))
       else [],
       Z.of_nat (length (filter (fun k => f k = false)
                           (seqZ i (Z.of_nat (length seen)))))).
Proof.
  induction seen as [|ok seen IH]; intros i f Hf; cbn [list_missing].
  - cbn. by destruct pm.
  - rewrite (IH (i + 1) f).
    2:{ intros j Hj.
        assert ((ok :: seen) !! S j = Some (f (i + Z.of_nat (S j)))) as Hj'
          by (apply Hf; cbn [length]; lia).
        change ((ok :: seen) !! S j) with (seen !! j) in Hj'.
        rewrite Hj'. do 2 f_equal. lia. }
    assert (ok = f i) as ->.
    { specialize (Hf 0%nat). cbn in Hf. rewrite Z.add_0_r in Hf.
      assert (Some ok = Some (f i)) as [= ->] by (apply Hf; lia). done. }
    cbn [length]. rewrite Nat2Z.inj_succ, (seqZ_cons i) by lia.
    rewrite Z.pred_succ. replace (Z.succ i) with (i + 1) by lia.
    rewrite filter_cons. destruct (f i) eqn:Hfi.
    + rewrite decide_False by done. done.
    + rewrite decide_True by done. destruct pm; cbn [length]; f_equal; lia.
Qed.

Lemma main_listing (fl : flags) (c : contents) (allocated : bool)
    (out : listing) :
  main fl (Some c) allocated = Finished out ->
  let vals := values_of (elements c) in
  0 < maxValue fl /\
  out = mkListing
          (if printMissing fl
           then filter (fun k => k ∉ vals) (seqZ 0 (maxValue fl)) else [])
          (maxValue fl - 1)
          (Z.of_nat (length (filter (fun k => k ∈ vals) (seqZ 0 (maxValue fl)))))
          (Z.of_nat (length (filter (fun k => k ∉ vals) (seqZ 0 (maxValue fl))))).
Proof.
  intros Hmain. cbn zeta. unfold main in Hmain.
  set (vals := values_of (elements c)).
  destruct (String.eqb (filePath fl) EmptyString); [done |].
  destruct (Z.leb_spec (maxValue fl) 0) as [|Hmax]; [done |].
  destruct (first_token c); try done.
  destruct allocated; [| done]. cbn [negb] in Hmain.
  destruct (decode_all (maxValue fl) (elements c)
              (replicate (Z.to_nat (maxValue fl)) false, 0))
    as [[seen total]|] eqn:Hdec; [| done].
  destruct (closing_fails c); [done |].
  pose proof (decode_all_tells _ _ [] _ _ (slice_tells_start (maxValue fl)) Hdec)
    as (Hlen & Hlook & Htot).
  cbn [app fst snd] in Hlen, Hlook, Htot. fold vals in Hlook, Htot.
  rewrite (list_missing_spec _ seen 0 (fun k => bool_decide (k ∈ vals))) in Hmain.
  2:{ intros j Hj. rewrite Hlook by lia. do 2 f_equal. }
  rewrite Hlen, Z2Nat.id in Hmain by lia.
  assert (filter (fun k => bool_decide (k ∈ vals) = false) (seqZ 0 (maxValue fl))
          = filter (fun k => k ∉ vals) (seqZ 0 (maxValue fl))) as Habs.
  { apply list_filter_iff. intros k. by rewrite bool_decide_eq_false. }
  rewrite Habs in Hmain. injection Hmain as <-. by rewrite Htot.
Qed.

(** X9. What the scanner prints when it ends normally, in terms of the
    values that the objects of the file carry: the values listed as missing
    are exactly the numbers from 0 to below [-max] that no object carries, in
    increasing order (and none is listed without [-print-missing]);
    [missing] is their number, [seen] is the number of those that some
    object carries, and the two add up to [-max]. Objects without the field,
    values outside the range and repeated values change nothing. *)
Theorem scanner_lists_absent_values (fl : flags) (c : contents)
    (allocated : bool) (out : listing) :
  main fl (Some c) allocated = Finished out ->
  let vals := values_of (elements c) in
  let absent := filter (fun k => k ∉ vals) (seqZ 0 (maxValue fl)) in
  printed out = (if printMissing fl then absent else []) /\
  missing out = Z.of_nat (length absent) /\
  totalValues out =
    Z.of_nat (length (filter (fun k => k ∈ vals) (seqZ 0 (maxValue fl)))) /\
  totalValues out + missing out = maxValue fl /\
  checked_up_to out = maxValue fl - 1.
Proof.
  intros Hmain. cbn zeta. destruct (main_listing _ _ _ _ Hmain) as [Hmax ->].
  cbn [printed missing totalValues checked_up_to].
  repeat split; try done.
  pose proof (filter_app_complement (fun k => k ∈ values_of (elements c))
                (seqZ 0 (maxValue fl))) as Hperm.
  apply Permutation_length in Hperm. rewrite length_app, length_seqZ in Hperm.
  lia.
Qed.

Lemma scanner_lists_absent_values_witness :
  main (mkFlags "g01.json" 6 true)
       (Some (mkContents ArrayStart
                [Object (Some 0); Object None; Object (Some 2); Object (Some 5);
                 Object (Some 2); Object (Some 9); Object (Some 3)] false))
       true
  = Finished (mkListing [1; 4] 5 4 2) /\
  missing (mkListing [1; 4] 5 4 2) =
  Z.of_nat (length (filter (fun k => k ∉ values_of
      [Object (Some 0); Object None; Object (Some 2); Object (Some 5);
       Object (Some 2); Object (Some 9); Object (Some 3)]) (seqZ 0 6))).
Proof.
  split; [exact scanner_readme |].
  exact (proj1 (proj2 (scanner_lists_absent_values _ _ _ _ scanner_readme))).
Defined.






End ScannerFacts.

(** ** The scanner against the validation engine *)

Section ScannerAgreement.
Import Validation.

Lemma values_of_rows (rows : list Z) :
  BackupScanner.values_of
    ((fun e => BackupScanner.Object (Some (int_of_uint64 e))) <$> rows)
  = int_of_uint64 <$> rows.
Proof.
  induction rows as [|e rows IH]; [done |].
  unfold BackupScanner.values_of in *. cbn. by rewrite IH.
Qed.

(** X12. The scanner and the validation engine agree. For a backup file
    that holds the rows a node enumerates, scanned with [-max] set to the
    aggregate count of the node, the scanner reports as many missing values
    as a pass over the node that ran to its end, and the values it lists are
    the indices that the pass left unseen. *)
Theorem scanner_agrees_with_validation final (i : nat) (h : Z)
    (pages : list (list Z)) (tbl tbl' : gmap string Z) (r : report)
    (path : string) (pm : bool) (allocated : bool) (out : BackupScanner.listing) :
  Forall (fun p => p <> []) pages ->
  validate_node final i (mkNode (Some h) (Some <$> pages)) tbl = Ok (tbl', r) ->
  BackupScanner.main (BackupScanner.mkFlags path h pm)
    (Some (BackupScanner.mkContents BackupScanner.ArrayStart
             ((fun e => BackupScanner.Object (Some (int_of_uint64 e)))
                <$> concat pages) false))
    allocated
  = BackupScanner.Finished out ->
  BackupScanner.missing out = missed r /\
  (pm = true ->
   forall k : Z, k ∈ BackupScanner.printed out <-> seen (locals r) !! k = Some false).
Proof.
  intros Hne Hv Hmain.
  destruct (validate_node_stream _ _ _ _ _ _ _ Hne Hv) as (_ & Hscan & Hm).
  pose proof (scan_page_tells final h [] _ (init_scan h) _ (seen_tells_init h) Hscan)
    as Htells.
  cbn [app] in Htells.
  destruct (main_listing _ _ _ _ Hmain) as [Hmax ->].
  cbn [BackupScanner.elements BackupScanner.maxValue BackupScanner.printMissing
       BackupScanner.missing BackupScanner.printed].
  rewrite values_of_rows. split.
  - rewrite Hm. symmetry. by apply count_missed_tells.
  - intros -> k. rewrite list_elem_of_filter, elem_of_seqZ, (Htells k).
    destruct (decide (0 <= k < h)) as [Hk|Hk].
    + split.
      * intros [Hn _]. by rewrite bool_decide_eq_false_2.
      * intros [= Hb]. apply bool_decide_eq_false in Hb. split; [done | lia].
    + split; [intros [_ ?]; lia | done].
Qed.

Lemma scanner_agrees_with_validation_witness :
  exists (tbl' : gmap string Z) (r : report),
    validate_node true 0 (mkNode (Some 5) (Some <$> [[0; 2; 3; 4]])) ∅
      = Ok (tbl', r) /\
    BackupScanner.missing (BackupScanner.mkListing [1] 4 4 1) = missed r.
Proof.
  destruct (node_summary_Some _ _ _ _ _ _ _ scenario_C) as (tbl' & r & Hv & _).
  exists tbl', r. split; [exact Hv |].
  refine (proj1 (scanner_agrees_with_validation true 0 5 [[0; 2; 3; 4]] ∅ tbl' r
                   "g01.json" true true _ _ Hv _)).
  - repeat constructor; discriminate.
  - vm_compute. reflexivity.
Defined.

End ScannerAgreement.

(** ** The writers: logs, targets, stops and panics *)

(** What the log of a worker becomes in one move. *)
Lemma step_log_grows cfg s a (w0 : nat) (l : list log_line) :
  errLogs s !! w0 = Some l ->
  exists l' : list log_line, errLogs (step cfg s a) !! w0 = Some (l ++ l').
Proof.
  intros Hl.
  assert (exists l', errLogs s !! w0 = Some (l ++ l')) as Hsame
    by (exists []; by rewrite app_nil_r).
  step_inversion cfg s a; cbn [errLogs]; try done.
  - destruct (decide (w0 = w)) as [->|Hne].
    + rewrite Hl, handle_response_spec in Hh. cbn [default from_option id] in Hh.
      injection Hh as <- _. eexists.
      apply list_lookup_insert_eq. by eapply lookup_lt_Some.
    + rewrite list_lookup_insert_ne by done. done.
  - destruct (decide (w0 = w)) as [->|Hne].
    + rewrite Hl, handle_response_spec in Hh. cbn [default from_option id] in Hh.
      injection Hh as <- _. eexists.
      apply list_lookup_insert_eq. by eapply lookup_lt_Some.
    + rewrite list_lookup_insert_ne by done. done.
Qed.

(** X13. The error log of a worker is append-only: whatever the process
    does after a point of a run, the log each worker had at that point is a
    prefix of the log it has later. *)
Theorem worker_log_is_append_only cfg (acts more : list action) (w0 : nat)
    (l : list log_line) :
  errLogs (run cfg acts) !! w0 = Some l ->
  exists l' : list log_line,
    errLogs (run cfg (acts ++ more)) !! w0 = Some (l ++ l').
Proof.
  intros Hl. induction more as [|a more IH] using rev_ind.
  - exists []. by rewrite !app_nil_r.
  - destruct IH as [l1 Hl1]. rewrite app_assoc, run_snoc.
    destruct (step_log_grows cfg _ a w0 _ Hl1) as [l2 Hl2].
    exists (l1 ++ l2). by rewrite app_assoc.
Qed.

Lemma worker_log_is_append_only_witness :
  exists l' : list log_line,
    errLogs (run main_config
               ([Tick 1; Stamp 1 0 0 5; Send 1 (mkResponse true true [])]
                ++ [Tick 1; Stamp 1 0 0 6; Send 1 (mkResponse false false [])]))
      !! 1%nat
    = Some ([ErrorAddingEvent; ErrorUnmarshaling; FailedToAddEvent 0] ++ l').
Proof.
  apply worker_log_is_append_only. vm_compute. reflexivity.
Defined.

(** X14. The answer to a write leaves the log of the worker untouched in one
    case only: no RPC error, no decoding error, and a response that holds
    exactly one record, with the value that was reserved. Every other answer
    adds at least one line. *)
Theorem log_untouched_iff_clean_echo (value : Z) (resp : response)
    (errLog : list log_line) :
  fst (handle_response value resp errLog) = errLog <->
  rpc_error resp = false /\ decode_error resp = false /\ echoed resp = [value].
Proof.
  rewrite handle_response_spec. cbn [fst]. split.
  - intros Heq.
    assert (lines_logged value resp = []) as Hnil.
    { apply (app_inv_head errLog). by rewrite app_nil_r. }
    unfold lines_logged in Hnil.
    destruct (rpc_error resp); [done |]. destruct (decode_error resp); [done |].
    destruct (echoed resp) as [|got [|]]; try done.
    destruct (Z.eqb_spec got value); [by subst | done].
  - intros (Hr & Hd & He). unfold lines_logged. rewrite Hr, Hd, He, Z.eqb_refl.
    cbn. by rewrite app_nil_r.
Qed.

Lemma log_untouched_iff_clean_echo_witness :
  fst (handle_response 7 (mkResponse false false [7]) [ErrorAddingEvent])
  = [ErrorAddingEvent].
Proof.
  apply (proj2 (log_untouched_iff_clean_echo 7 (mkResponse false false [7])
                  [ErrorAddingEvent])).
  repeat split.
Defined.

Lemma targeted_init cfg : targeted cfg (init cfg).
Proof.
  unfold targeted, init. cbn [pcs history].
  split; [apply length_replicate |]. split; [| split].
  - intros later ? ? ? ? ? Hnil. by destruct later.
  - intros w0 v Hw. by apply lookup_replicate in Hw as [? _].
  - intros w0 v p c Hw. by apply lookup_replicate in Hw as [? _].
Qed.

Lemma targeted_step cfg s a : targeted cfg s -> targeted cfg (step cfg s a).
Proof.
  intros (Hlen & Hsent & Hres & Hst).
  step_inversion cfg s a; [done | | | |]; unfold targeted; cbn [pcs history];
    rewrite length_insert; (split; [done |]).
  - split; [| split].
    + intros [|e later] earlier w0 c v p Heq; [done |].
      injection Heq as _ Heq. eauto.
    + intros w0 v Hw0.
      destruct (lookup_insert_pc _ _ _ _ _ _ Hpc Hw0) as [[-> [= <-]]|[_ Hold]].
      * apply list_elem_of_here.
      * apply list_elem_of_further. by apply Hres.
    + intros w0 v p c Hw0.
      destruct (lookup_insert_pc _ _ _ _ _ _ Hpc Hw0) as [[_ ?]|[_ Hold]]; [done |].
      destruct (Hst _ _ _ _ Hold) as (? & ? & ?).
      repeat split; try done. by apply list_elem_of_further.
  - split; [| split].
    + intros [|e later] earlier w0 c v p Heq; [done |].
      injection Heq as _ Heq. eauto.
    + intros w0 v Hw0.
      destruct (lookup_insert_pc _ _ _ _ _ _ Hpc Hw0) as [[_ ?]|[_ Hold]]; [done |].
      apply list_elem_of_further. by apply Hres.
    + intros w0 v p c Hw0.
      destruct (lookup_insert_pc _ _ _ _ _ _ Hpc Hw0)
        as [[-> [= -> -> ->]]|[_ Hold]].
      * repeat split; try done.
        -- by eapply list_elem_of_lookup_2.
        -- apply list_elem_of_further. by apply Hres.
      * destruct (Hst _ _ _ _ Hold) as (? & ? & ?).
        repeat split; try done. by apply list_elem_of_further.
  - destruct (Hst _ _ _ _ Hpc) as (Hc & Hperson & Hreserved).
    split; [| split].
    + intros [|e later] earlier w0 c v p Heq.
      * injection Heq as -> -> -> -> <-. repeat split; try done.
        rewrite <- Hlen. by eapply lookup_lt_Some.
      * injection Heq as _ Heq. eauto.
    + intros w0 v Hw0.
      destruct (lookup_insert_pc _ _ _ _ _ _ Hpc Hw0) as [[_ Hq]|[_ Hold]].
      * by destruct (max_events cfg <=? value).
      * apply list_elem_of_further. by apply Hres.
    + intros w0 v p c Hw0.
      destruct (lookup_insert_pc _ _ _ _ _ _ Hpc Hw0) as [[_ Hq]|[_ Hold]].
      * by destruct (max_events cfg <=? value).
      * destruct (Hst _ _ _ _ Hold) as (? & ? & ?).
        repeat split; try done. by apply list_elem_of_further.
  - destruct (Hst _ _ _ _ Hpc) as (Hc & Hperson & Hreserved).
    split; [| split].
    + intros [|e [|e' later]] earlier w0 c v p Heq; [done | |].
      * injection Heq as _ -> -> -> -> <-. repeat split; try done.
        rewrite <- Hlen. by eapply lookup_lt_Some.
      * injection Heq as _ _ Heq. eauto.
    + intros w0 v Hw0.
      destruct (lookup_insert_pc _ _ _ _ _ _ Hpc Hw0) as [[_ ?]|[_ Hold]]; [done |].
      do 2 apply list_elem_of_further. by apply Hres.
    + intros w0 v p c Hw0.
      destruct (lookup_insert_pc _ _ _ _ _ _ Hpc Hw0) as [[_ ?]|[_ Hold]]; [done |].
      destruct (Hst _ _ _ _ Hold) as (? & ? & ?).
      repeat split; try done. by do 2 apply list_elem_of_further.
Qed.

(** X15. In every run, a write is only ever sent to one of the configured
    nodes, refers to one of the seeded people, comes from one of the workers,
    and carries a value that this same worker had reserved before. *)
Theorem writes_are_well_targeted cfg (acts : list action)
    (later earlier : list event) (w0 client : nat) (value : Z)
    (personID : string) :
  history (run cfg acts) = later ++ EvMutate w0 client value personID :: earlier ->
  (client < length servers)%nat /\ personID ∈ people /\
  EvReserve w0 value ∈ earlier /\ (w0 < workers cfg)%nat.
Proof.
  intros Hsplit.
  assert (targeted cfg (run cfg acts)) as (_ & Hsent & _).
  { apply run_invariant; [apply targeted_init |].
    intros s a. apply targeted_step. }
  by apply (Hsent later).
Qed.

Lemma writes_are_well_targeted_witness :
  (2 < length servers)%nat /\ "Bob"%string ∈ people /\
  EvReserve 4 0 ∈ [EvStamp 4 0 9; EvReserve 4 0] /\ (4 < workers main_config)%nat.
Proof.
  apply (writes_are_well_targeted main_config
           [Tick 4; Stamp 4 1 2 9; Send 4 (mkResponse true false [])] []).
  vm_compute. reflexivity.
Defined.

Lemma out_of_loop_kept ps (w w0 : nat) (p p' : pc) :
  ps !! w = Some p -> p <> Stopped -> p <> Aborted ->
  ps !! w0 = Some Stopped \/ ps !! w0 = Some Aborted ->
  <[w := p']> ps !! w0 = Some Stopped \/ <[w := p']> ps !! w0 = Some Aborted.
Proof.
  intros Hw Hs Ha Hout. destruct (decide (w0 = w)) as [->|Hne].
  - rewrite Hw in Hout. destruct Hout as [[= ?]|[= ?]]; done.
  - by rewrite list_lookup_insert_ne.
Qed.

Lemma settled_init cfg : settled cfg (init cfg).
Proof.
  unfold settled, init. cbn [pcs history]. split.
  - intros w0 Hw. by apply lookup_replicate in Hw as [? _].
  - intros ? ? ? ? Hin. by apply elem_of_nil in Hin.
Qed.

Lemma settled_step cfg s a : settled cfg s -> settled cfg (step cfg s a).
Proof.
  intros (Hstop & Hsent).
  step_inversion cfg s a; [done | | | |]; unfold settled; cbn [pcs history]; split.
  - intros w0 Hw0.
    destruct (lookup_insert_pc _ _ _ _ _ _ Hpc Hw0) as [[_ ?]|[_ Hold]]; [done |].
    destruct (Hstop _ Hold) as (c & v & p & ? & ?).
    exists c, v, p. split; [done | by apply list_elem_of_further].
  - intros w0 c v p Hin Hv. apply elem_of_cons in Hin as [?|Hin]; [done |].
    by apply (out_of_loop_kept _ _ _ _ _ Hpc); [| | eapply Hsent].
  - intros w0 Hw0.
    destruct (lookup_insert_pc _ _ _ _ _ _ Hpc Hw0) as [[_ ?]|[_ Hold]]; [done |].
    destruct (Hstop _ Hold) as (c & v & p & ? & ?).
    exists c, v, p. split; [done | by apply list_elem_of_further].
  - intros w0 c v p Hin Hv. apply elem_of_cons in Hin as [?|Hin]; [done |].
    by apply (out_of_loop_kept _ _ _ _ _ Hpc); [| | eapply Hsent].
  - intros w0 Hw0.
    destruct (lookup_insert_pc _ _ _ _ _ _ Hpc Hw0) as [[-> Hq]|[_ Hold]].
    + exists client, value, personID. split; [| apply list_elem_of_here].
      destruct (Z.leb_spec (max_events cfg) value); [done | discriminate].
    + destruct (Hstop _ Hold) as (c & v & p & ? & ?).
      exists c, v, p. split; [done | by apply list_elem_of_further].
  - intros w0 c v p Hin Hv. apply elem_of_cons in Hin as [[= -> -> -> ->]|Hin].
    + left. destruct (Z.leb_spec (max_events cfg) value); [| lia].
      apply list_lookup_insert_eq. by eapply lookup_lt_Some.
    + by apply (out_of_loop_kept _ _ _ _ _ Hpc); [| | eapply Hsent].
  - intros w0 Hw0.
    destruct (lookup_insert_pc _ _ _ _ _ _ Hpc Hw0) as [[_ ?]|[_ Hold]]; [done |].
    destruct (Hstop _ Hold) as (c & v & p & ? & ?).
    exists c, v, p. split; [done | by do 2 apply list_elem_of_further].
  - intros w0 c v p Hin Hv. apply elem_of_cons in Hin as [?|Hin]; [done |].
    apply elem_of_cons in Hin as [[= -> -> -> ->]|Hin].
    + right. apply list_lookup_insert_eq. by eapply lookup_lt_Some.
    + by apply (out_of_loop_kept _ _ _ _ _ Hpc); [| | eapply Hsent].
Qed.

(** X16. A worker leaves its loop for one reason only, and for good. In every
    run, a worker that has stopped has sent a value at or above the ceiling;
    and a worker that has sent such a value has stopped (or panicked on the
    answer), so that it sends nothing after it. *)
Theorem worker_stops_after_ceiling_value cfg (acts : list action) :
  let s := run cfg acts in
  (forall w0 : nat,
     pcs s !! w0 = Some Stopped ->
     exists (client : nat) (value : Z) (personID : string),
       max_events cfg <= value /\ EvMutate w0 client value personID ∈ history s) /\
  (forall (w0 client : nat) (value : Z) (personID : string),
     EvMutate w0 client value personID ∈ history s -> max_events cfg <= value ->
     (pcs s !! w0 = Some Stopped \/ pcs s !! w0 = Some Aborted) /\
     forall a : action,
       match a with
       | Tick w | Stamp w _ _ _ | Send w _ => w = w0
       end ->
       step cfg s a = s).
Proof.
  intros s.
  assert (settled cfg s) as (Hstop & Hsent).
  { apply run_invariant; [apply settled_init |].
    intros s0 a. apply settled_step. }
  split; [exact Hstop |].
  intros w0 c v p Hin Hv. pose proof (Hsent _ _ _ _ Hin Hv) as Hout.
  split; [exact Hout |].
  intros a Ha. unfold step. destruct (panicked s); [done |].
  destruct a as [w | w ? ? ? | w ?]; subst w;
    destruct Hout as [-> | ->]; done.
Qed.

Lemma worker_stops_after_ceiling_value_witness :
  exists (client : nat) (value : Z) (personID : string),
    max_events (mkConfig 2 1 1) <= value /\
    EvMutate 0 client value personID
      ∈ history (run (mkConfig 2 1 1) (quiet_round 0 0 ++ quiet_round 0 1)).
Proof.
  apply (proj1 (worker_stops_after_ceiling_value (mkConfig 2 1 1)
                  (quiet_round 0 0 ++ quiet_round 0 1)) 0%nat).
  vm_compute. reflexivity.
Defined.





(** ** The ledger of submission times *)

Lemma ledger_ok_init cfg : ledger_ok (init cfg).
Proof.
  intros key [t Ht]. unfold init in Ht. cbn [insertTime] in Ht.
  by rewrite lookup_empty in Ht.
Qed.

Lemma ledger_ok_step cfg s a : ledger_ok s -> ledger_ok (step cfg s a).
Proof.
  intros Hok.
  step_inversion cfg s a; [done | | | |]; intros key Hkey; cbn [insertTime] in Hkey.
  - destruct (Hok key Hkey) as (v & -> & [Hsub | (w1 & p & c & Hw1)]);
      exists v; (split; [done |]).
    + left. unfold submitted in *. cbn [history].
      by rewrite omap_rev_cons, app_nil_r.
    + right. exists w1, p, c. cbn [pcs]. rewrite list_lookup_insert_ne; [done |].
      intros <-. congruence.
  - unfold stamp in Hkey. apply lookup_insert_is_Some in Hkey as [<- | [Hne Hkey]].
    + exists value. split; [done |]. right. exists w, personID, client.
      cbn [pcs]. apply list_lookup_insert_eq. by eapply lookup_lt_Some.
    + destruct (Hok key Hkey) as (v & -> & [Hsub | (w1 & p & c & Hw1)]);
        exists v; (split; [done |]).
      * left. unfold submitted in *. cbn [history].
        by rewrite omap_rev_cons, app_nil_r.
      * right. exists w1, p, c. cbn [pcs]. rewrite list_lookup_insert_ne; [done |].
        intros <-. congruence.
  - destruct (Hok key Hkey) as (v & -> & [Hsub | (w1 & p & c & Hw1)]);
      exists v; (split; [done |]).
    + left. unfold submitted in *. cbn [history]. rewrite omap_rev_cons.
      apply elem_of_app. by left.
    + destruct (decide (w1 = w)) as [->|Hne].
      * left. rewrite Hpc in Hw1. injection Hw1 as <- _ _.
        unfold submitted. cbn [history]. rewrite omap_rev_cons.
        apply elem_of_app. right. apply list_elem_of_here.
      * right. exists w1, p, c. cbn [pcs]. by rewrite list_lookup_insert_ne.
  - destruct (Hok key Hkey) as (v & -> & [Hsub | (w1 & p & c & Hw1)]);
      exists v; (split; [done |]).
    + left. unfold submitted in *. cbn [history]. rewrite !omap_rev_cons.
      apply elem_of_app. left. apply elem_of_app. by left.
    + destruct (decide (w1 = w)) as [->|Hne].
      * left. rewrite Hpc in Hw1. injection Hw1 as <- _ _.
        unfold submitted. cbn [history]. rewrite !omap_rev_cons.
        apply elem_of_app. left. apply elem_of_app. right. apply list_elem_of_here.
      * right. exists w1, p, c. cbn [pcs]. by rewrite list_lookup_insert_ne.
Qed.

(** An entry of the ledger survives a move. *)
Lemma ledger_entry_kept cfg s a (key : Z) (t : time) :
  max_events cfg + Z.of_nat (workers cfg) <= 2 ^ 63 ->
  counted cfg s -> sent_or_held s -> ledger_ok s ->
  insertTime s !! key = Some t -> insertTime (step cfg s a) !! key = Some t.
Proof.
  intros Hbound (Hres & Hcount & _) Hperm Hok Hkey.
  step_inversion cfg s a; cbn [insertTime]; try done.
  unfold stamp. rewrite lookup_insert_ne; [done |]. intros <-.
  unfold sent_or_held in Hperm.
  assert (NoDup (submitted s ++ held (pcs s))) as Hnd
    by (rewrite Hperm, Hres; apply NoDup_seqZ).
  assert (forall v, v ∈ submitted s ++ held (pcs s) -> int_of_uint64 v = v) as Hint.
  { intros v Hv. rewrite Hperm, Hres in Hv. apply elem_of_seqZ in Hv.
    apply int_of_uint64_small. lia. }
  assert (value ∈ held (pcs s)) as Hheld by (by apply (held_lookup _ w _ _ Hpc)).
  destruct (Hok (int_of_uint64 value)) as (v & Heq & Hwhere); [by eexists |].
  assert (v ∈ submitted s ++ held (pcs s)) as Hv.
  { apply elem_of_app. destruct Hwhere as [?|(w1 & p & c & Hw1)]; [by left |].
    right. by apply (held_lookup _ w1 _ _ Hw1). }
  rewrite (Hint value), (Hint v) in Heq
    by (try done; apply elem_of_app; by right).
  subst v. destruct Hwhere as [Hsub|(w1 & p & c & Hw1)].
  - apply NoDup_app in Hnd as (_ & Hdisj & _). by apply (Hdisj value).
  - apply NoDup_app in Hnd as (_ & _ & Hnd).
    assert (w = w1) as <- by (by apply (held_NoDup_inj _ _ _ _ _ value Hnd Hpc Hw1)).
    congruence.
Qed.

(** X18. The ledger of submission times is written once per value. With the
    ceiling and the workers together below 2^63 (so that a value is its own
    key), an entry found in the ledger at some point of a run is found there
    unchanged at every later point, and every key of the ledger is a value
    that was reserved. *)
Theorem ledger_is_write_once cfg (acts more : list action) (key : Z) (t : time) :
  0 <= max_events cfg ->
  max_events cfg + Z.of_nat (workers cfg) <= 2 ^ 63 ->
  insertTime (run cfg acts) !! key = Some t ->
  insertTime (run cfg (acts ++ more)) !! key = Some t /\
  key ∈ reserved (run cfg acts).
Proof.
  intros HK Hbound Hkey.
  assert (max_events cfg + Z.of_nat (workers cfg) < 2 ^ 64) as Hbound' by lia.
  split.
  - induction more as [|a more IH] using rev_ind; [by rewrite app_nil_r |].
    rewrite app_assoc, run_snoc.
    apply ledger_entry_kept; try done.
    + by apply counted_run.
    + apply sent_or_held_run.
    + apply run_invariant; [apply ledger_ok_init |].
      intros s0 a0. apply ledger_ok_step.
  - assert (ledger_ok (run cfg acts)) as Hok.
    { apply run_invariant; [apply ledger_ok_init |].
      intros s0 a0. apply ledger_ok_step. }
    destruct (Hok key) as (v & -> & Hwhere); [by eexists |].
    pose proof (sent_or_held_run cfg acts) as Hperm. unfold sent_or_held in Hperm.
    destruct (counted_run cfg acts HK Hbound') as (Hres & Hcount & _).
    assert (v ∈ reserved (run cfg acts)) as Hv.
    { rewrite <- Hperm. apply elem_of_app.
      destruct Hwhere as [?|(w1 & p & c & Hw1)]; [by left |].
      right. by apply (held_lookup _ w1 _ _ Hw1). }
    rewrite int_of_uint64_small; [done |].
    rewrite Hres in Hv. apply elem_of_seqZ in Hv. lia.
Qed.

Lemma ledger_is_write_once_witness :
  0 <= max_events main_config /\
  max_events main_config + Z.of_nat (workers main_config) <= 2 ^ 63 /\
  insertTime (run main_config
                ([Tick 2; Stamp 2 0 0 11]
                 ++ [Send 2 (mkResponse true true []); Tick 2; Stamp 2 0 0 12]))
    !! 0 = Some 11.
Proof.
  assert (0 <= max_events main_config) as HK by (vm_compute; discriminate).
  assert (max_events main_config + Z.of_nat (workers main_config) <= 2 ^ 63)
    as Hbound by (vm_compute; discriminate).
  split; [exact HK |]. split; [exact Hbound |].
  apply (ledger_is_write_once main_config [Tick 2; Stamp 2 0 0 11] _ 0 11 HK Hbound).
  vm_compute. reflexivity.
Defined.

(** ** The reporter *)

(** X19. What is left to write, as the reporter computes it, wraps around.
    As long as the count is at most the ceiling it is the ceiling minus the
    count; but the workers take the count past the ceiling, by one value
    each, and then the subtraction of [uint64]s gives 2^64 minus the excess:
    at least 2^64 minus the number of workers, and exactly that once all of
    them have stopped. The reporter returns on the first such report. *)
Theorem reporter_remaining_wraps cfg (acts : list action) :
  0 <= max_events cfg ->
  max_events cfg + Z.of_nat (workers cfg) < 2 ^ 64 ->
  let s := run cfg acts in
  (count s <= max_events cfg ->
   Reporter.remaining cfg (count s) = max_events cfg - count s) /\
  (max_events cfg < count s ->
   Reporter.remaining cfg (count s) = 2 ^ 64 - (count s - max_events cfg) /\
   2 ^ 64 - Z.of_nat (workers cfg) <= Reporter.remaining cfg (count s) /\
   Reporter.returns cfg (count s) = true) /\
  (panicked s = false -> (0 < workers cfg)%nat ->
   Forall (fun p => p = Stopped) (pcs s) ->
   Reporter.remaining cfg (count s) = 2 ^ 64 - Z.of_nat (workers cfg)).
Proof.
  intros HK Hbound s.
  destruct (counted_run cfg acts HK Hbound) as (_ & Hcount & _ & Hrun).
  fold s in Hcount, Hrun.
  assert (max_events cfg < count s ->
          Reporter.remaining cfg (count s) = 2 ^ 64 - (count s - max_events cfg))
    as Hwrap.
  { intros Hover. unfold Reporter.remaining, uint64_wrap.
    replace (max_events cfg - count s)
      with (2 ^ 64 - (count s - max_events cfg) + -1 * 2 ^ 64) by lia.
    rewrite Z_mod_plus_full. apply Z.mod_small. lia. }
  split; [| split].
  - intros Hle. unfold Reporter.remaining. apply uint64_wrap_small. lia.
  - intros Hover. rewrite (Hwrap Hover). split; [done |]. split; [lia |].
    unfold Reporter.returns. apply Z.leb_le. lia.
  - intros Hp Hn Hall. destruct (Hrun Hp) as [Hlen Hleave].
    rewrite count_leaving_all_stopped in Hleave by done.
    rewrite Hwrap by lia. lia.
Qed.

Lemma reporter_remaining_wraps_witness :
  0 <= max_events (mkConfig 2 1 1) /\
  max_events (mkConfig 2 1 1) + Z.of_nat (workers (mkConfig 2 1 1)) < 2 ^ 64 /\
  Reporter.remaining (mkConfig 2 1 1)
    (count (run (mkConfig 2 1 1) (quiet_round 0 0 ++ quiet_round 0 1)))
  = 2 ^ 64 - (count (run (mkConfig 2 1 1) (quiet_round 0 0 ++ quiet_round 0 1)) - 1).
Proof.
  assert (0 <= max_events (mkConfig 2 1 1)) as HK by (vm_compute; discriminate).
  assert (max_events (mkConfig 2 1 1) + Z.of_nat (workers (mkConfig 2 1 1)) < 2 ^ 64)
    as Hbound by (vm_compute; reflexivity).
  split; [exact HK |]. split; [exact Hbound |].
  apply (proj1 (proj2 (reporter_remaining_wraps (mkConfig 2 1 1)
                         (quiet_round 0 0 ++ quiet_round 0 1) HK Hbound))).
  vm_compute. reflexivity.
Defined.

(** ** The scheduler: how many passes, and what they record *)

Section SchedulerMore.
Import Validation Scheduler.




Lemma validate_from_running_zero (clients : list node) :
  Forall counts_up clients ->
  forall (i : nat) (tbl : gmap string Z) (printed : list report),
    all_zero tbl -> all_zero (table (validate_from false i clients tbl printed)).
Proof.
  induction 1 as [|client clients Hup _ IH]; intros i tbl printed Hzero;
    cbn [validate_from]; [done |].
  destruct (validate_node false i client tbl) as [[tbl' r]|c] eqn:Hv; [| done].
  apply IH.
  apply validate_node_inv in Hv as (st & Hagg & Hscan & Hloc & Hm & Hcase).
  apply scan_pages_balanced in Hscan as [_ Hbal]; [| apply balanced_init].
  specialize (Hup _ Hagg).
  destruct Hcase as [(_ & -> & _) | (Heq & (server & Hsrv & ->) & _)]; [done |].
  intros key m Hlook. destruct (decide (server = key)) as [->|Hne].
  - rewrite lookup_insert_eq in Hlook. injection Hlook as <-.
    split; [lia | by eapply list_elem_of_lookup_2].
  - rewrite lookup_insert_ne in Hlook by done. by apply Hzero.
Qed.

(** X21. While the writers run, the table of missing counts can only show
    zeros. Whatever the nodes hold and whatever counts the scheduler reads,
    as long as the aggregate counts are not negative, every entry that the
    passes run by the scheduler have left in the table is a 0 under the
    address of a node; a gap can only be recorded by the final pass. *)
Theorem scheduler_records_only_zeros cfg (polls : list poll) :
  Forall (fun p => Forall counts_up (answers p)) polls ->
  forall (key : string) (m : Z),
    missingCount (Scheduler.run cfg polls) !! key = Some m ->
    m = 0 /\ key ∈ servers.
Proof.
  intros Hpolls. change (all_zero (missingCount (Scheduler.run cfg polls))).
  unfold Scheduler.run.
  induction polls as [|p polls IH] using rev_ind.
  - intros key m Hlook. unfold start in Hlook. cbn [foldl missingCount] in Hlook.
    by rewrite lookup_empty in Hlook.
  - apply Forall_app in Hpolls as [Hpolls Hp]. apply Forall_cons in Hp as [Hp _].
    specialize (IH Hpolls). rewrite foldl_app. cbn [foldl].
    set (s := foldl (poll_step cfg) (start cfg) polls) in *.
    assert (all_zero (table (validate (answers p) false (missingCount s))))
      as Hafter by (by apply validate_from_running_zero).
    unfold poll_step.
    destruct (at_ s); try done;
      (destruct (max_events cfg <=? observed p); [done |];
       destruct (observed p <? nextValidationAt s); [done |];
       by destruct (exited (validate (answers p) false (missingCount s)))).
Qed.

Lemma scheduler_records_only_zeros_witness :
  Forall (fun p => Forall counts_up (answers p))
    [mkPoll 2600 [scenario 5 [0; 2; 3; 4]; scenario 2 [0; 1]]] /\
  missingCount (Scheduler.run main_config
                  [mkPoll 2600 [scenario 5 [0; 2; 3; 4]; scenario 2 [0; 1]]])
    !! "http://localhost:8081"%string = Some 0 /\
  "http://localhost:8081"%string ∈ servers.
Proof.
  assert (Forall (fun p => Forall counts_up (answers p))
            [mkPoll 2600 [scenario 5 [0; 2; 3; 4]; scenario 2 [0; 1]]]) as Hup
    by (repeat constructor; intros h [= <-]; lia).
  assert (missingCount (Scheduler.run main_config
                          [mkPoll 2600 [scenario 5 [0; 2; 3; 4]; scenario 2 [0; 1]]])
            !! "http://localhost:8081"%string = Some 0) as Hlook
    by (vm_compute; reflexivity).
  split; [exact Hup |]. split; [exact Hlook |].
  exact (proj2 (scheduler_records_only_zeros main_config _ Hup _ _ Hlook)).
Defined.

End SchedulerMore.
